(** * Smart-Parking-Management: the occupancy store and its fee engine

    A shallow embedding of [car.h]/[car.cpp], [parking_lot.h]/
    [parking_lot.cpp] and the menu loop of [main.cpp], and the properties of
    the store (capacity, identifier counter, lookup, removal), of the fee
    computation, and of what a session prints and saves.

    Conventions of the embedding:
    - [int] is a value of [Z] between [INT_MIN] and [INT_MAX]; signed
      overflow has no defined result in C++, so an operation that would
      overflow yields [None];
    - [double] is the binary64 type [float] of the kernel, with IEEE 754
      rounding, infinities and NaN;
    - [std::chrono::system_clock::time_point] is its tick count since the
      epoch (a nanosecond count held in a signed 64-bit integer, as in
      libstdc++); the clock reading [system_clock::now()] is an argument
      [now] of every operation that reads the clock;
    - [std::string] is [string], [std::vector<Car>] is [list Car];
    - console prompts, the session log and the CSV and bill files are not
      part of the state of the store: [parkCar] is given the values read
      from its prompts, and [removeCarByIdAndOwner] returns the figures it
      streams into the bill text; the messages printed and the two files
      are put around the store in [World]. *)

From Stdlib Require Import ZArith List Sorted Permutation String Ascii Bool Lia Floats Uint63.
Import ListNotations.

#[local] Set Warnings "-inexact-float".
#[local] Open Scope Z_scope.

(** ** Machine integers *)

Definition INT_MAX : Z := 2147483647.
Definition INT64_MIN : Z := -9223372036854775808.
Definition INT64_MAX : Z := 9223372036854775807.

Definition in_int64 (z : Z) : bool := (INT64_MIN <=? z) && (z <=? INT64_MAX).

(** ** [double] helpers *)

Module Double.

(** [std::max(a, b)] is [(a < b) ? b : a]. *)
Definition max (a b : float) : float := if (a <? b)%float then b else a.

(** The implicit conversion of a 64-bit integer to [double] (round to
    nearest even); [of_uint63] does it for the magnitude. *)
Definition of_long (z : Z) : float :=
  if z <? 0 then (- of_uint63 (Uint63.of_Z (- z)))%float
  else of_uint63 (Uint63.of_Z z).

(** The conversion of a [double] to a signed 64-bit integer truncates
    toward zero and has no defined result for NaN, the infinities and
    values out of range. *)
Definition to_long (x : float) : option Z :=
  match Prim2SF x with
  | S754_zero _ => Some 0
  | S754_finite s m e =>
      let mag := match e with
                 | Zneg p => Z.shiftr (Zpos m) (Zpos p)
                 | _ => Z.shiftl (Zpos m) e
                 end in
      let z := if s then - mag else mag in
      if in_int64 z then Some z else None
  | _ => None
  end.

Definition is_finite (x : float) : bool :=
  match Prim2SF x with
  | S754_zero _ | S754_finite _ _ _ => true
  | _ => false
  end.

End Double.

(** ** [std::chrono] *)

Module chrono.

(** Ticks of [system_clock::duration] in one minute. *)
Definition ticks_per_minute : Z := 60000000000.

(** [a - b] on durations and time points. *)
Definition sub (a b : Z) : option Z :=
  if in_int64 (a - b) then Some (a - b) else None.

(** [duration_cast<std::chrono::minutes>(d).count()]: integer division,
    which truncates toward zero. *)
Definition minutes_count (d : Z) : Z := Z.quot d ticks_per_minute.

(** [duration_cast<system_clock::duration>(duration<double>(secs))]:
    the seconds are scaled to ticks in [double] and then truncated. *)
Definition ticks_of_seconds (secs : float) : option Z :=
  Double.to_long (secs * 1000000000)%float.

End chrono.

(** ** car.h, car.cpp *)

Record Car : Type := mkCar {
  id : Z;
  ownerName : string;
  licensePlate : string;
  model : string;
  color : string;
  fuelType : string;
  phone : string;
  email : string;
  membership : string;
  paymentMethod : string;
  slot : string;
  slotSize : string;
  exitGate : string;
  reservedSlot : bool;
  hourlyRate : float;
  dynamicPricing : bool;
  parkingTime : Z
}.

(** [Car::Car()] *)
Definition Car_default (now : Z) : Car :=
  {| id := 0;
     ownerName := ""; licensePlate := ""; model := ""; color := "";
     fuelType := ""; phone := ""; email := ""; membership := "";
     paymentMethod := ""; slot := ""; slotSize := ""; exitGate := "";
     reservedSlot := false;
     hourlyRate := 50%float;
     dynamicPricing := false;
     parkingTime := now |}.

(** [Car::Car(int id, const std::string& ownerName, ...)] *)
Definition Car_make (now : Z) (id : Z)
    (ownerName licensePlate model color fuelType phone email membership
     paymentMethod slot slotSize : string)
    (reservedSlot : bool) (exitGate : string)
    (hourlyRate : float) (dynamicPricing : bool) : Car :=
  {| id := id;
     ownerName := ownerName; licensePlate := licensePlate; model := model;
     color := color; fuelType := fuelType; phone := phone; email := email;
     membership := membership; paymentMethod := paymentMethod; slot := slot;
     slotSize := slotSize; exitGate := exitGate;
     reservedSlot := reservedSlot;
     hourlyRate := hourlyRate;
     dynamicPricing := dynamicPricing;
     parkingTime := now |}.

Definition set_parkingTime (c : Car) (t : Z) : Car :=
  {| id := id c;
     ownerName := ownerName c; licensePlate := licensePlate c;
     model := model c; color := color c; fuelType := fuelType c;
     phone := phone c; email := email c; membership := membership c;
     paymentMethod := paymentMethod c; slot := slot c;
     slotSize := slotSize c; exitGate := exitGate c;
     reservedSlot := reservedSlot c;
     hourlyRate := hourlyRate c;
     dynamicPricing := dynamicPricing c;
     parkingTime := t |}.

(** ** parking_lot.h, parking_lot.cpp *)

Record ParkingLot : Type := mkParkingLot {
  cars : list Car;
  nextCarID : Z;
  silentMode : bool
}.

Definition MAX_CAPACITY : nat := 100.

(** [ParkingLot::ParkingLot() : nextCarID(1001) {}] *)
Definition ParkingLot_new : ParkingLot :=
  {| cars := []; nextCarID := 1001; silentMode := false |}.

Definition setSilentMode (mode : bool) (lot : ParkingLot) : ParkingLot :=
  {| cars := cars lot; nextCarID := nextCarID lot; silentMode := mode |}.

Definition set_cars (lot : ParkingLot) (l : list Car) : ParkingLot :=
  {| cars := l; nextCarID := nextCarID lot; silentMode := silentMode lot |}.

Definition set_nextCarID (lot : ParkingLot) (n : Z) : ParkingLot :=
  {| cars := cars lot; nextCarID := n; silentMode := silentMode lot |}.

(** [cars.size() < MAX_CAPACITY] *)
Definition has_room (lot : ParkingLot) : bool :=
  (List.length (cars lot) <? MAX_CAPACITY)%nat.

(** [size_t ParkingLot::getCarCount() const] *)
Definition getCarCount (lot : ParkingLot) : nat := List.length (cars lot).

(** *** [void ParkingLot::parkCar()] *)

(** The values held by the local variables of [parkCar] once the prompts
    have been answered. *)
Record ParkInput : Type := mkParkInput {
  in_ownerName : string;
  in_licensePlate : string;
  in_model : string;
  in_color : string;
  in_fuelType : string;
  in_phone : string;
  in_email : string;
  in_membership : string;
  in_paymentMethod : string;
  in_slot : string;
  in_slotSize : string;
  in_reservedChoice : ascii;
  in_exitGate : string;
  in_hourlyRate : float;
  in_dynamicChoice : ascii;
  in_parkingHours : float
}.

Definition is_yes (c : ascii) : bool :=
  (Ascii.eqb c "y" || Ascii.eqb c "Y")%char.

(** [nextCarID++]: the value before the increment and the store after it;
    undefined at [INT_MAX]. *)
Definition post_increment_nextCarID (lot : ParkingLot) : option (Z * ParkingLot) :=
  if nextCarID lot <? INT_MAX
  then Some (nextCarID lot, set_nextCarID lot (nextCarID lot + 1))
  else None.

(** [now - duration_cast<system_clock::duration>(duration<double>(parkingHours * 3600.0))] *)
Definition backdated (now : Z) (parkingHours : float) : option Z :=
  match chrono.ticks_of_seconds (parkingHours * 3600)%float with
  | Some d => chrono.sub now d
  | None => None
  end.

Definition parkCar (now : Z) (inp : ParkInput) (lot : ParkingLot) : option ParkingLot :=
  match post_increment_nextCarID lot with
  | None => None
  | Some (newID, lot1) =>
      let car :=
        Car_make now newID (in_ownerName inp) (in_licensePlate inp)
          (in_model inp) (in_color inp) (in_fuelType inp) (in_phone inp)
          (in_email inp) (in_membership inp) (in_paymentMethod inp)
          (in_slot inp) (in_slotSize inp) (is_yes (in_reservedChoice inp))
          (in_exitGate inp) (in_hourlyRate inp)
          (is_yes (in_dynamicChoice inp)) in
      let car' :=
        if (0 <? in_parkingHours inp)%float
        then option_map (set_parkingTime car) (backdated now (in_parkingHours inp))
        else Some car in
      match car' with
      | None => None
      | Some c =>
          if has_room lot1
          then Some (set_cars lot1 (cars lot1 ++ [c]))
          else Some lot1
      end
  end.

(** *** [void ParkingLot::testAddCar(const Car& car)] *)
Definition testAddCar (car : Car) (lot : ParkingLot) : ParkingLot :=
  if has_room lot then set_cars lot (cars lot ++ [car]) else lot.

(** *** [std::find_if] and [std::vector::erase] *)

(** The position of the first element that satisfies [p], with the
    element. *)
Fixpoint find_if {A : Type} (p : A -> bool) (l : list A) : option (nat * A) :=
  match l with
  | [] => None
  | x :: l' =>
      if p x then Some (O, x)
      else match find_if p l' with
           | Some (i, y) => Some (S i, y)
           | None => None
           end
  end.

Fixpoint erase {A : Type} (i : nat) (l : list A) : list A :=
  match l, i with
  | [], _ => []
  | _ :: l', O => l'
  | x :: l', S j => x :: erase j l'
  end.

(** *** [Car ParkingLot::getCarByID(const int id) const] *)
Definition getCarByID (now : Z) (wanted : Z) (lot : ParkingLot) : Car :=
  match find_if (fun car => id car =? wanted) (cars lot) with
  | Some (_, car) => car
  | None => Car_default now
  end.

(** *** Elapsed time *)

(** [std::max(0.0, duration_cast<std::chrono::minutes>(now - parkingTime).count() / 60.0)],
    the expression [calculateFee] and [removeCarByIdAndOwner] share. *)
Definition elapsed_minutes (now t : Z) : option Z :=
  option_map chrono.minutes_count (chrono.sub now t).

Definition hours_of_minutes (m : Z) : float :=
  Double.max 0 (Double.of_long m / 60)%float.

Definition elapsed_hours (now t : Z) : option float :=
  option_map hours_of_minutes (elapsed_minutes now t).

(** *** [double ParkingLot::calculateFee(const Car& car) const] *)

(** The body of [calculateFee] after [hours] has been computed. *)
Definition fee_of_hours (hours : float) (car : Car) : float :=
  let subtotal := (hours * hourlyRate car)%float in
  let discount := 0%float in
  let gst := 0%float in
  let '(subtotal, discount, gst) :=
    if dynamicPricing car then
      let '(subtotal, discount) :=
        if (5 <? hours)%float then
          let discount := (subtotal * 0.30)%float in
          ((subtotal - discount)%float, discount)
        else (subtotal, discount) in
      let gst := (subtotal * 0.18)%float in
      (subtotal, discount, gst)
    else (subtotal, discount, gst) in
  (subtotal + gst)%float.

Definition calculateFee (now : Z) (car : Car) : option float :=
  option_map (fun hours => fee_of_hours hours car)
             (elapsed_hours now (parkingTime car)).

(** *** [bool ParkingLot::removeCarByIdAndOwner(const int id, const std::string& owner)] *)

(** The values streamed into the bill text, in the order of the text. The
    discount line is printed only if [discount > 0]. *)
Record Bill : Type := mkBill {
  bill_id : Z;
  bill_ownerName : string;
  bill_licensePlate : string;
  bill_hours : float;
  bill_rate : float;
  bill_gross : float;
  bill_discount : float;
  bill_discount_printed : bool;
  bill_gst : float;
  bill_total : float
}.

(** Lines 271-294, for the record [it] points to. *)
Definition bill_of_hours (hours : float) (it : Car) : Bill :=
  let gross := (hours * hourlyRate it)%float in
  let discount := 0%float in
  let gst := 0%float in
  let '(gross, discount, gst) :=
    if dynamicPricing it then
      let '(gross, discount) :=
        if (5 <? hours)%float then
          let discount := (gross * 0.30)%float in
          ((gross - discount)%float, discount)
        else (gross, discount) in
      let gst := (gross * 0.18)%float in
      (gross, discount, gst)
    else (gross, discount, gst) in
  let total := (gross + gst)%float in
  {| bill_id := id it;
     bill_ownerName := ownerName it;
     bill_licensePlate := licensePlate it;
     bill_hours := hours;
     bill_rate := hourlyRate it;
     bill_gross := (hours * hourlyRate it)%float;
     bill_discount := discount;
     bill_discount_printed := (0 <? discount)%float;
     bill_gst := gst;
     bill_total := total |}.

(** The result of a removal: the returned [bool], the bill that was built
    (it is printed and saved only when [silentMode] is off) and the store
    afterwards. *)
Record Removal : Type := mkRemoval {
  removed : bool;
  bill : option Bill;
  bill_saved : bool;
  lot_after : ParkingLot
}.

Definition owner_matches (wanted : Z) (owner : string) (c : Car) : bool :=
  (id c =? wanted) && (ownerName c =? owner)%string.

Definition removeCarByIdAndOwner (now : Z) (wanted : Z) (owner : string)
    (lot : ParkingLot) : option Removal :=
  match find_if (owner_matches wanted owner) (cars lot) with
  | None =>
      Some {| removed := false; bill := None; bill_saved := false;
              lot_after := lot |}
  | Some (i, it) =>
      match elapsed_hours now (parkingTime it) with
      | None => None
      | Some hours =>
          Some {| removed := true;
                  bill := Some (bill_of_hours hours it);
                  bill_saved := negb (silentMode lot);
                  lot_after := set_cars lot (erase i (cars lot)) |}
      end
  end.

(** ** Runs of the store *)

Inductive Op : Type :=
| OpPark (now : Z) (inp : ParkInput)
| OpTestAdd (car : Car)
| OpRemove (now : Z) (wanted : Z) (owner : string).

(** One operation; beside the store, the record a successful [parkCar]
    appended (read back as [cars.back()]). *)
Definition step (op : Op) (lot : ParkingLot) : option (ParkingLot * option Car) :=
  match op with
  | OpPark now inp =>
      match parkCar now inp lot with
      | Some lot' =>
          Some (lot',
                if (List.length (cars lot) <? List.length (cars lot'))%nat
                then List.last (List.map Some (cars lot')) None
                else None)
      | None => None
      end
  | OpTestAdd car => Some (testAddCar car lot, None)
  | OpRemove now wanted owner =>
      option_map (fun r => (lot_after r, None))
                 (removeCarByIdAndOwner now wanted owner lot)
  end.

(** A run: the final store and the identifiers handed out by the
    successful [parkCar] calls, oldest first. *)
Fixpoint run (ops : list Op) (lot : ParkingLot) : option (ParkingLot * list Z) :=
  match ops with
  | [] => Some (lot, [])
  | op :: ops' =>
      match step op lot with
      | None => None
      | Some (lot1, admitted) =>
          match run ops' lot1 with
          | None => None
          | Some (lot2, ids) =>
              Some (lot2, match admitted with
                          | Some c => id c :: ids
                          | None => ids
                          end)
          end
      end
  end.

(** ** Sample data *)

(** Answers to the prompts of [parkCar]: dynamic pricing at rate 100 for a
    car that has already been parked for six hours. *)
Definition sample_input : ParkInput :=
  {| in_ownerName := "John Doe"; in_licensePlate := "MH12AB1234";
     in_model := "Model X"; in_color := "Red"; in_fuelType := "Petrol";
     in_phone := "9876543210"; in_email := "john@example.com";
     in_membership := "None"; in_paymentMethod := "Cash";
     in_slot := "S1"; in_slotSize := "Medium"; in_reservedChoice := "n";
     in_exitGate := "Exit A"; in_hourlyRate := 100%float;
     in_dynamicChoice := "y"; in_parkingHours := 6%float |}.

(** A clock reading (in ticks since the epoch). *)
Definition t0 : Z := 1700000000000000000.

(** When [parkCar] has a defined result: the counter can be incremented and
    the backdated parking time, when one is asked for, can be computed. *)
Definition parkCar_defined (now : Z) (inp : ParkInput) (lot : ParkingLot) : bool :=
  (nextCarID lot <? INT_MAX) &&
  (if (0 <? in_parkingHours inp)%float
   then match backdated now (in_parkingHours inp) with
        | Some _ => true
        | None => false
        end
   else true).

(** The store after [n] calls of [parkCar] with the same answers. *)
Definition parked (n : nat) : ParkingLot :=
  match run (List.repeat (OpPark t0 sample_input) n) ParkingLot_new with
  | Some (lot, _) => lot
  | None => ParkingLot_new
  end.

Definition full_lot : ParkingLot := parked 100.

(** A short run with a removal and a test addition between admissions. *)
Definition sample_run : list Op :=
  [OpPark t0 sample_input; OpPark t0 sample_input;
   OpRemove t0 1001 "John Doe"; OpTestAdd (Car_default t0);
   OpPark t0 sample_input].

(** A record as the tests build it ([createCar]), parked at [t]. *)
Definition createCar (t : Z) (id : Z) (owner : string)
    (dynamicPricing : bool) (hourlyRate : float) : Car :=
  set_parkingTime
    (Car_make t id owner "MH12AB1234" "Model X" "Color" "Fuel" "0000000000"
       "email@example.com" "None" "Cash" "S1" "Medium" false "Exit A"
       hourlyRate dynamicPricing) t.

(** ** The fee formula of the specification *)


(** The whole number of elapsed minutes, clamped below at zero. *)
Definition whole_minutes (now t : Z) : Z :=
  Z.max 0 (Z.quot (now - t) chrono.ticks_per_minute).




(** ** Classes of binary64 values

    The values of [spec_float], the specification of the kernel's doubles,
    sorted by what the fee computation needs to know of them. *)

(** Not NaN, and of sign [s] ([true] for [-]). *)
Definition signed (s : bool) (x : spec_float) : Prop :=
  match x with
  | S754_zero s' | S754_infinity s' | S754_finite s' _ _ => s' = s
  | S754_nan => False
  end.

Definition finite_or_zero (x : spec_float) : Prop :=
  match x with
  | S754_zero _ | S754_finite _ _ _ => True
  | _ => False
  end.

(** The values for which [0 <= x] holds: the zeros of both signs, the
    positive finite doubles and [+infinity]. *)
Definition ge0 (x : spec_float) : Prop :=
  match x with
  | S754_zero _ => True
  | S754_finite s _ _ | S754_infinity s => s = false
  | S754_nan => False
  end.

(** The values for which [x == 0] holds. *)
Definition zero_class (x : spec_float) : Prop :=
  match x with S754_zero _ => True | _ => False end.

Definition SF_60 : spec_float := S754_finite false 8444249301319680 (-47).








(** A record all of whose fields are the zero of their type: the number 0,
    the empty string, [false], the epoch. *)
Definition zero_valued (c : Car) : Prop :=
  id c = 0 /\
  ownerName c = ""%string /\ licensePlate c = ""%string /\
  model c = ""%string /\ color c = ""%string /\ fuelType c = ""%string /\
  phone c = ""%string /\ email c = ""%string /\ membership c = ""%string /\
  paymentMethod c = ""%string /\ slot c = ""%string /\
  slotSize c = ""%string /\ exitGate c = ""%string /\
  reservedSlot c = false /\
  (hourlyRate c =? 0)%float = true /\
  dynamicPricing c = false /\
  parkingTime c = 0.

(** ** Console, files and the menu loop

    The messages an operation prints once its prompts are answered, the two
    files it appends to, and the loop of [main]. A message stands for its
    text; the prompts, the menu and the session log are left out. The
    answers are those the prompts accept and the stream reads; both files
    can be opened for appending and no other program writes to them. *)

(** *** [void ParkingLot::displayCars() const] *)

(** The columns of one row of the table. *)
Record DisplayRow : Type := mkDisplayRow {
  row_id : Z;
  row_ownerName : string;
  row_licensePlate : string;
  row_model : string;
  row_color : string;
  row_fuelType : string;
  row_slot : string;
  row_slotSize : string;
  row_hourlyRate : float;
  row_dynamic : string
}.

Inductive DisplayLine : Type :=
| NoCarsParked
| TableHeader
| TableRow (r : DisplayRow).

Inductive Message : Type :=
| MsgParked
| MsgBill (b : Bill)
| MsgNotFound
| MsgDisplay (l : DisplayLine)
| MsgInvalidInput
| MsgInvalidChoice.

(** [ParkingLot_logOut(silent, msg)] *)
Definition ParkingLot_logOut (silent : bool) (msg : Message) : list Message :=
  if silent then [] else [msg].

Definition yes_no (b : bool) : string := if b then "Yes" else "No".

Definition display_row (car : Car) : DisplayRow :=
  {| row_id := id car;
     row_ownerName := ownerName car;
     row_licensePlate := licensePlate car;
     row_model := model car;
     row_color := color car;
     row_fuelType := fuelType car;
     row_slot := slot car;
     row_slotSize := slotSize car;
     row_hourlyRate := hourlyRate car;
     row_dynamic := yes_no (dynamicPricing car) |}.

Definition displayCars (lot : ParkingLot) : list Message :=
  match cars lot with
  | [] => ParkingLot_logOut (silentMode lot) (MsgDisplay NoCarsParked)
  | _ =>
      ParkingLot_logOut (silentMode lot) (MsgDisplay TableHeader) ++
      List.flat_map
        (fun car => ParkingLot_logOut (silentMode lot)
                      (MsgDisplay (TableRow (display_row car))))
        (cars lot)
  end.

(** *** [void ParkingLot::saveCarToCSV(const Car& car) const] *)

(** The fields of one data line of [cars_data.csv], in the order written. *)
Record CsvRow : Type := mkCsvRow {
  csv_id : Z;
  csv_ownerName : string;
  csv_licensePlate : string;
  csv_model : string;
  csv_color : string;
  csv_fuelType : string;
  csv_phone : string;
  csv_email : string;
  csv_membership : string;
  csv_paymentMethod : string;
  csv_slot : string;
  csv_slotSize : string;
  csv_hourlyRate : float;
  csv_dynamic : string;
  csv_entryTime : string
}.

Inductive CsvLine : Type :=
| CsvHeader
| CsvData (row : CsvRow).

(** [std::string::pop_back] on a string that is not empty. *)
Fixpoint pop_back (s : string) : string :=
  match s with
  | EmptyString => EmptyString
  | String c EmptyString => EmptyString
  | String c rest => String c (pop_back rest)
  end.

(** The data line written for [car], with [timeStr] as entry time. *)
Definition csv_row (timeStr : string) (car : Car) : CsvRow :=
  {| csv_id := id car;
     csv_ownerName := ownerName car;
     csv_licensePlate := licensePlate car;
     csv_model := model car;
     csv_color := color car;
     csv_fuelType := fuelType car;
     csv_phone := phone car;
     csv_email := email car;
     csv_membership := membership car;
     csv_paymentMethod := paymentMethod car;
     csv_slot := slot car;
     csv_slotSize := slotSize car;
     csv_hourlyRate := hourlyRate car;
     csv_dynamic := yes_no (dynamicPricing car);
     csv_entryTime := timeStr |}.

(** [if (!timeStr.empty()) timeStr.pop_back();] on the text of [std::ctime]. *)
Definition entry_time (ctime_now : string) : string :=
  if (ctime_now =? "")%string then ctime_now else pop_back ctime_now.

(** A file is absent ([None]) or holds lines. [ctime_now] is the text
    [std::ctime] returns for the time of the call. The header is written
    when [stat] finds no file; the stream, opened for appending, creates
    the file. *)
Definition saveCarToCSV (ctime_now : string) (car : Car)
    (file : option (list CsvLine)) : list CsvLine :=
  let write_header := match file with None => true | Some _ => false end in
  let csv := match file with None => [] | Some lines => lines end in
  let csv := if write_header then csv ++ [CsvHeader] else csv in
  csv ++ [CsvData (csv_row (entry_time ctime_now) car)].

(** Saving several records one after the other. *)
Fixpoint save_all (saves : list (string * Car)) (file : option (list CsvLine))
    : option (list CsvLine) :=
  match saves with
  | [] => file
  | (ctime_now, car) :: rest =>
      save_all rest (Some (saveCarToCSV ctime_now car file))
  end.

(** *** [void ParkingLot::saveBillToText(const std::string& bill) const] *)
Definition saveBillToText (b : Bill) (file : list Bill) : list Bill :=
  file ++ [b].

(** *** The operations with their output *)

Record World : Type := mkWorld {
  w_lot : ParkingLot;
  w_csv : option (list CsvLine);
  w_bills : list Bill;
  w_console : list Message
}.

(** [parkCar], lines 184-200, with what it saves and prints. *)
Definition parkCar_io (now : Z) (ctime_now : string) (inp : ParkInput)
    (w : World) : option World :=
  match parkCar now inp (w_lot w) with
  | None => None
  | Some lot' =>
      if has_room (w_lot w) then
        Some {| w_lot := lot';
                w_csv := if silentMode lot' then w_csv w
                         else Some (saveCarToCSV ctime_now
                                      (List.last (cars lot') (Car_default now))
                                      (w_csv w));
                w_bills := w_bills w;
                w_console := w_console w ++
                             ParkingLot_logOut (silentMode lot') MsgParked |}
      else
        Some {| w_lot := lot'; w_csv := w_csv w; w_bills := w_bills w;
                w_console := w_console w |}
  end.

(** [removeCarByIdAndOwner], with the bill printed and saved unless the
    store is silent. *)
Definition removeCarByIdAndOwner_io (now wanted : Z) (owner : string)
    (w : World) : option (bool * World) :=
  match removeCarByIdAndOwner now wanted owner (w_lot w) with
  | None => None
  | Some r =>
      match bill r with
      | Some b =>
          Some (removed r,
                {| w_lot := lot_after r; w_csv := w_csv w;
                   w_bills := if bill_saved r then saveBillToText b (w_bills w)
                              else w_bills w;
                   w_console := w_console w ++
                                (if bill_saved r
                                 then ParkingLot_logOut (silentMode (w_lot w)) (MsgBill b)
                                 else []) |})
      | None =>
          Some (removed r,
                {| w_lot := lot_after r; w_csv := w_csv w;
                   w_bills := w_bills w; w_console := w_console w |})
      end
  end.

(** [void ParkingLot::removeCar()], given the id and the name entered. *)
Definition removeCar (now carID : Z) (ownerName : string) (w : World) : option World :=
  match removeCarByIdAndOwner_io now carID ownerName w with
  | None => None
  | Some (true, w') => Some w'
  | Some (false, w') =>
      Some {| w_lot := w_lot w'; w_csv := w_csv w'; w_bills := w_bills w';
              w_console := w_console w' ++
                           ParkingLot_logOut (silentMode (w_lot w')) MsgNotFound |}
  end.

(** *** [int main()] *)

(** What the user would answer to the prompts that follow a menu choice. *)
Record Answers : Type := mkAnswers {
  a_now : Z;
  a_ctime : string;
  a_park : ParkInput;
  a_carID : Z;
  a_ownerName : string
}.

(** One entry at the menu prompt: text that [std::cin >> choice] cannot
    read as an [int], or a number. *)
Inductive MenuInput : Type :=
| NotANumber
| Choice (choice : Z) (answers : Answers).

Definition print (msg : Message) (w : World) : World :=
  {| w_lot := w_lot w; w_csv := w_csv w; w_bills := w_bills w;
     w_console := w_console w ++ [msg] |}.

(** The loop of [main] over the entries typed; the result says whether the
    program has returned (choice 4) or still waits for input. *)
Fixpoint main_loop (inputs : list MenuInput) (w : World) : option (bool * World) :=
  match inputs with
  | [] => Some (false, w)
  | NotANumber :: rest => main_loop rest (print MsgInvalidInput w)
  | Choice choice a :: rest =>
      if choice =? 1 then
        match parkCar_io (a_now a) (a_ctime a) (a_park a) w with
        | Some w' => main_loop rest w'
        | None => None
        end
      else if choice =? 2 then
        match removeCar (a_now a) (a_carID a) (a_ownerName a) w with
        | Some w' => main_loop rest w'
        | None => None
        end
      else if choice =? 3 then
        main_loop rest
          {| w_lot := w_lot w; w_csv := w_csv w; w_bills := w_bills w;
             w_console := w_console w ++ displayCars (w_lot w) |}
      else if choice =? 4 then Some (true, w)
      else main_loop rest (print MsgInvalidChoice w)
  end.

(** [main] starts from a new store, with the files as they are found. *)
Definition main_start (csv : option (list CsvLine)) (bills : list Bill) : World :=
  {| w_lot := ParkingLot_new; w_csv := csv; w_bills := bills; w_console := [] |}.

(** The store operations a list of menu entries amounts to. *)
Fixpoint session_ops (inputs : list MenuInput) : list Op :=
  match inputs with
  | [] => []
  | NotANumber :: rest => session_ops rest
  | Choice choice a :: rest =>
      if choice =? 1 then OpPark (a_now a) (a_park a) :: session_ops rest
      else if choice =? 2 then
        OpRemove (a_now a) (a_carID a) (a_ownerName a) :: session_ops rest
      else if choice =? 3 then session_ops rest
      else if choice =? 4 then []
      else session_ops rest
  end.

Definition is_TestAdd (op : Op) : bool :=
  match op with OpTestAdd _ => true | _ => false end.

(** The ids written on the data lines of the CSV file. *)
Definition csv_ids (file : option (list CsvLine)) : list Z :=
  match file with
  | None => []
  | Some lines =>
      List.flat_map (fun l => match l with
                              | CsvHeader => []
                              | CsvData row => [csv_id row]
                              end) lines
  end.

(** ** The identifiers held by the store *)

(** The stored ids grow strictly with the position and lie between 1001
    and the counter. *)
Definition store_ids_ok (lot : ParkingLot) : Prop :=
  1001 <= nextCarID lot /\
  StronglySorted Z.lt (List.map id (cars lot)) /\
  Forall (fun c => 1001 <= id c < nextCarID lot) (cars lot).

(** The record [parkCar] builds from the answers, parked at [t]. *)
Definition car_of_input (t : Z) (newID : Z) (inp : ParkInput) : Car :=
  set_parkingTime
    (Car_make t newID (in_ownerName inp) (in_licensePlate inp)
       (in_model inp) (in_color inp) (in_fuelType inp) (in_phone inp)
       (in_email inp) (in_membership inp) (in_paymentMethod inp)
       (in_slot inp) (in_slotSize inp) (is_yes (in_reservedChoice inp))
       (in_exitGate inp) (in_hourlyRate inp)
       (is_yes (in_dynamicChoice inp))) t.

(** A run as the menu produces them: admissions and a removal. *)
Definition menu_run : list Op :=
  [OpPark t0 sample_input; OpPark t0 sample_input;
   OpRemove t0 1001 "John Doe"; OpPark t0 sample_input].

(** Answers for a session at the menu, with the text [std::ctime] gives. *)
Definition sample_answers : Answers :=
  {| a_now := t0;
     a_ctime := "Tue Nov 14 22:13:20 2023" ++ String (ascii_of_nat 10) "";
     a_park := sample_input;
     a_carID := 1001;
     a_ownerName := "John Doe" |}.

(** Two admissions, a listing, a removal, a wrong choice, the exit, and an
    entry typed after the exit. *)
Definition sample_session : list MenuInput :=
  [Choice 1 sample_answers; NotANumber; Choice 1 sample_answers;
   Choice 3 sample_answers; Choice 2 sample_answers; Choice 7 sample_answers;
   Choice 4 sample_answers; Choice 1 sample_answers].

(** A world whose store is full. *)
Definition full_world : World :=
  {| w_lot := full_lot; w_csv := Some []; w_bills := []; w_console := [] |}.

(** Answers of a driver who arrives now: no hours already parked. *)
Definition arriving_input : ParkInput :=
  {| in_ownerName := "Jane Roe"; in_licensePlate := "KA01CD5678";
     in_model := "Model Y"; in_color := "Blue"; in_fuelType := "Diesel";
     in_phone := "9123456780"; in_email := "jane@example.com";
     in_membership := "Gold"; in_paymentMethod := "Card";
     in_slot := "S2"; in_slotSize := "Large"; in_reservedChoice := "y";
     in_exitGate := "Exit B"; in_hourlyRate := 80%float;
     in_dynamicChoice := "n"; in_parkingHours := 0%float |}.

(** Two records entered under one id, as [testAddMultipleCarsSameIDSequentially]
    does. *)
Definition twice_2013 : ParkingLot :=
  testAddCar (createCar t0 2013 "Second" false 50)
    (testAddCar (createCar t0 2013 "First" false 50)
       (setSilentMode true ParkingLot_new)).

(** A record whose parking time is ten hours ahead of the clock [t0]. *)
Definition future_car : Car :=
  createCar (t0 + 600 * chrono.ticks_per_minute) 700 "FutureTime" true 50.

(** * Properties *)

(** ** Binary64 rounding

    What the specification of the kernel's doubles ([SpecFloat]) lets the
    rounded operations return: their sign, when they stay finite, and how
    far above the exact value the rounded one can lie. *)

Module Binary64.

(** The number of binary digits, through [Pos.size] and [Z.log2]. *)
Lemma digits2_pos_size (p : positive) : digits2_pos p = Pos.size p.
Proof. induction p; simpl; congruence. Qed.

Lemma Zdigits2_log2 (m : Z) : 0 < m -> Zdigits2 m = Z.log2 m + 1.
Proof.
  destruct m as [|p|p]; try lia. intros _. simpl.
  rewrite digits2_pos_size.
  destruct p; simpl; rewrite ?Pos.add_1_r; lia.
Qed.

(** One step of the right shift halves a mantissa that is not negative;
    [n] steps divide it by [2 ^ n]. *)
Lemma shr_1_m (mrs : shr_record) :
  0 <= shr_m mrs -> shr_m (shr_1 mrs) = shr_m mrs / 2.
Proof.
  destruct mrs as [m r s]. simpl. intros Hm.
  destruct m as [|[p|p|]|p]; simpl; try lia; try reflexivity.
  - rewrite Pos2Z.inj_xI. apply Z.div_unique with 1; lia.
  - rewrite Pos2Z.inj_xO. apply Z.div_unique with 0; lia.
Qed.

Lemma iter_pos_shr_1_m (p : positive) :
  forall mrs, 0 <= shr_m mrs ->
    shr_m (iter_pos shr_1 p mrs) = shr_m mrs / 2 ^ Zpos p.
Proof.
  induction p as [p IH|p IH|]; intros mrs Hm; simpl iter_pos.
  - assert (H1 : 0 <= shr_m (shr_1 mrs)) by (rewrite shr_1_m by lia; apply Z.div_pos; lia).
    assert (H2 : 0 <= shr_m (iter_pos shr_1 p (shr_1 mrs))) by (rewrite IH by lia; apply Z.div_pos; lia).
    rewrite IH, IH, shr_1_m by lia.
    rewrite !Z.div_div by lia.
    f_equal. rewrite Pos2Z.inj_xI, <- Z.pow_add_r, <- (Z.pow_1_r 2) at 1 by lia.
    rewrite <- Z.pow_add_r by lia. f_equal. lia.
  - assert (H2 : 0 <= shr_m (iter_pos shr_1 p mrs)) by (rewrite IH by lia; apply Z.div_pos; lia).
    rewrite IH, IH by lia. rewrite Z.div_div by lia.
    f_equal. rewrite Pos2Z.inj_xO, <- Z.pow_add_r by lia. f_equal. lia.
  - rewrite shr_1_m by lia. reflexivity.
Qed.

(** The exponent function of binary64: 53 digits, least exponent -1074. *)
Lemma fexp64 (e : Z) : fexp prec emax e = Z.max (e - 53) (-1074).
Proof. reflexivity. Qed.

Lemma shr_m_of_loc (m : Z) (l : location) : shr_m (shr_record_of_loc m l) = m.
Proof. destruct l as [|[| |]]; reflexivity. Qed.

(** [shr_fexp] brings the exponent up to [fexp] of the magnitude and
    divides the mantissa accordingly. *)
Lemma shr_fexp_spec (M E : Z) (l : location) :
  0 <= M ->
  let e1 := Z.max E (fexp prec emax (Zdigits2 M + E)) in
  exists mrs, shr_fexp prec emax M E l = (mrs, e1) /\
              shr_m mrs = M / 2 ^ (e1 - E).
Proof.
  intros HM e1. unfold shr_fexp, shr. subst e1.
  destruct (fexp prec emax (Zdigits2 M + E) - E) as [|p|p] eqn:Hn.
  - eexists. split; [f_equal; lia|].
    rewrite shr_m_of_loc. replace (Z.max _ _ - E) with 0 by lia.
    now rewrite Z.pow_0_r, Z.div_1_r.
  - eexists. split; [f_equal; lia|].
    rewrite iter_pos_shr_1_m by (rewrite shr_m_of_loc; lia).
    rewrite shr_m_of_loc. f_equal. f_equal. lia.
  - eexists. split; [f_equal; lia|].
    rewrite shr_m_of_loc. replace (Z.max _ _ - E) with 0 by lia.
    now rewrite Z.pow_0_r, Z.div_1_r.
Qed.

(** Rounding to nearest even keeps the truncated mantissa or adds one. *)
Lemma round_nearest_even_bounds (m : Z) (l : location) :
  m <= round_nearest_even m l <= m + 1.
Proof.
  destruct l as [|[| |]]; simpl; try lia. destruct (Z.even m); lia.
Qed.

(** [binary_round_aux], step by step: shift, round, shift again, then
    test for zero and for overflow. *)
Lemma binary_round_aux_shape (s : bool) (M E : Z) (l : location) :
  0 <= M ->
  let e1 := Z.max E (fexp prec emax (Zdigits2 M + E)) in
  exists M1,
    M / 2 ^ (e1 - E) <= M1 <= M / 2 ^ (e1 - E) + 1 /\
    let e2 := Z.max e1 (fexp prec emax (Zdigits2 M1 + e1)) in
    binary_round_aux prec emax s M E l =
      match M1 / 2 ^ (e2 - e1) with
      | Z0 => S754_zero s
      | Zpos m => if e2 <=? emax - prec then S754_finite s m e2
                  else S754_infinity s
      | Zneg _ => S754_nan
      end.
Proof.
  intros HM e1. unfold binary_round_aux.
  destruct (shr_fexp_spec M E l HM) as (mrs & -> & Hm). fold e1 in Hm |- *.
  set (M1 := round_nearest_even (shr_m mrs) (loc_of_shr_record mrs)).
  assert (HM' : 0 <= M / 2 ^ (e1 - E)) by (apply Z.div_pos; lia).
  pose proof (round_nearest_even_bounds (shr_m mrs) (loc_of_shr_record mrs)) as HM1.
  fold M1 in HM1. rewrite Hm in HM1.
  exists M1. split; [exact HM1|]. cbv zeta.
  destruct (shr_fexp_spec M1 e1 loc_Exact ltac:(lia)) as (mrs2 & -> & Hm2).
  rewrite Hm2. reflexivity.
Qed.

(** Bounds on the number of digits. *)
Lemma Zdigits2_nonneg (m : Z) : 0 <= Zdigits2 m.
Proof. destruct m; simpl; lia. Qed.

Lemma Zdigits2_small (m : Z) : 0 <= m <= 1 -> Zdigits2 m <= 1.
Proof. intros H. assert (m = 0 \/ m = 1) as [-> | ->] by lia; simpl; lia. Qed.

(** The digits of a quotient by a power of two, rounded up by at most one. *)
Lemma Zdigits2_quotient (M M1 k : Z) :
  0 <= M -> 0 <= k -> 2 <= M1 -> M1 <= M / 2 ^ k + 1 ->
  Zdigits2 M1 + k <= Zdigits2 M + 1.
Proof.
  intros HM Hk HM1 Hle.
  assert (Hq : 1 <= M / 2 ^ k) by lia.
  assert (Hpow : 0 < 2 ^ k) by (apply Z.pow_pos_nonneg; lia).
  assert (HMpos : 0 < M).
  { destruct (Z.eq_dec M 0) as [->|]; [|lia]. rewrite Z.div_0_l in Hq; lia. }
  rewrite (Zdigits2_log2 M1), (Zdigits2_log2 M) by lia.
  assert (H1 : Z.log2 M1 <= Z.log2 (M / 2 ^ k + 1)) by (apply Z.log2_le_mono; lia).
  assert (H2 : Z.log2 (M / 2 ^ k + 1) <= Z.log2 (M / 2 ^ k) + 1).
  { pose proof (Z.log2_succ_le (M / 2 ^ k)) as H.
    rewrite <- !Z.add_1_r in H. exact H. }
  assert (H3 : Z.log2 (M / 2 ^ k) = Z.max 0 (Z.log2 M - k)).
  { rewrite <- Z.shiftr_div_pow2 by lia. apply Z.log2_shiftr. lia. }
  assert (H4 : k <= Z.log2 M).
  { apply Z.log2_le_pow2; [lia|].
    apply Z.le_trans with (2 ^ k * (M / 2 ^ k)); [nia|].
    apply Z.mul_div_le. lia. }
  lia.
Qed.

(** What [binary_round_aux] can return for a mantissa that is not
    negative. *)
Lemma binary_round_aux_spec (s : bool) (M E : Z) (l : location) :
  0 <= M ->
  let e1 := Z.max E (fexp prec emax (Zdigits2 M + E)) in
  let top := Z.max (Z.max E (-1074)) (Zdigits2 M + E - 52) in
  match binary_round_aux prec emax s M E l with
  | S754_zero s' => s' = s
  | S754_infinity s' => s' = s /\ 971 < top
  | S754_nan => False
  | S754_finite s' m e =>
      s' = s /\ e1 <= e <= top /\ e <= 971 /\
      Zpos m * 2 ^ (e - E) <= M + 2 ^ (e1 - E)
  end.
Proof.
  intros HM e1 top.
  destruct (binary_round_aux_shape s M E l HM) as (M1 & HM1 & Heq).
  fold e1 in HM1, Heq. cbv zeta in Heq. rewrite Heq. clear Heq.
  set (e2 := Z.max e1 (fexp prec emax (Zdigits2 M1 + e1))).
  assert (Hk : 0 <= e1 - E) by lia.
  assert (Hpk : 0 < 2 ^ (e1 - E)) by (apply Z.pow_pos_nonneg; lia).
  assert (HM' : 0 <= M / 2 ^ (e1 - E)) by (apply Z.div_pos; lia).
  assert (He1 : e1 <= top) by (unfold e1, top; rewrite fexp64; lia).
  assert (He2 : e1 <= e2 <= top).
  { split; [unfold e2; lia|]. unfold e2. rewrite fexp64.
    destruct (Z_le_gt_dec M1 1) as [Hs|Hb].
    - pose proof (Zdigits2_small M1 ltac:(lia)). lia.
    - pose proof (Zdigits2_quotient M M1 (e1 - E) HM Hk ltac:(lia) ltac:(lia)).
      unfold top. lia. }
  assert (Hp2 : 0 < 2 ^ (e2 - e1)) by (apply Z.pow_pos_nonneg; lia).
  assert (HM2 : 0 <= M1 / 2 ^ (e2 - e1)) by (apply Z.div_pos; lia).
  destruct (M1 / 2 ^ (e2 - e1)) as [|m|m] eqn:HM2eq; [reflexivity| |lia].
  change (emax - prec) with 971.
  destruct (e2 <=? 971) eqn:Hle.
  - apply Z.leb_le in Hle. repeat split; try lia.
    replace (e2 - E) with ((e2 - e1) + (e1 - E)) by lia.
    rewrite Z.pow_add_r by lia.
    assert (Ha : Zpos m * 2 ^ (e2 - e1) <= M1).
    { rewrite <- HM2eq, Z.mul_comm. apply Z.mul_div_le. lia. }
    assert (Hb : 2 ^ (e1 - E) * (M / 2 ^ (e1 - E)) <= M) by (apply Z.mul_div_le; lia).
    nia.
  - apply Z.leb_gt in Hle. split; [reflexivity | lia].
Qed.

(** A double that is not NaN and has sign [s]. *)
(** [shl_align] lowers the exponent to the smaller of the two and keeps
    the value. *)
Lemma shl_align_spec (mx : positive) (ex ex' : Z) :
  snd (shl_align mx ex ex') = Z.min ex ex' /\
  Zpos (fst (shl_align mx ex ex')) = Zpos mx * 2 ^ (ex - Z.min ex ex').
Proof.
  unfold shl_align. destruct (ex' - ex) as [|d|d] eqn:Hd; simpl.
  - split; [lia|]. replace (ex - Z.min ex ex') with 0 by lia.
    rewrite Z.pow_0_r. lia.
  - split; [lia|]. replace (ex - Z.min ex ex') with 0 by lia.
    rewrite Z.pow_0_r. lia.
  - split; [lia|]. replace (ex - Z.min ex ex') with (Zpos d) by lia.
    change (Pos.iter xO mx d) with (shift_pos d mx).
    rewrite shift_pos_correct. rewrite Z.mul_comm. reflexivity.
Qed.

(** What [binary_round] can return, in particular for the conversion of
    an integer and for the sum of two finite doubles. *)
Lemma binary_round_spec (s : bool) (mx : positive) (ex : Z) :
  match binary_round prec emax s mx ex with
  | S754_zero s' => s' = s
  | S754_infinity s' => s' = s /\ 971 < Z.max (Z.max ex (-1074)) (Zdigits2 (Zpos mx) + ex - 52)
  | S754_nan => False
  | S754_finite s' m e =>
      s' = s /\ e <= Z.max (Z.max ex (-1074)) (Zdigits2 (Zpos mx) + ex - 52)
  end.
Proof.
  unfold binary_round.
  pose proof (shl_align_spec mx ex (fexp prec emax (Zpos (digits2_pos mx) + ex))) as [He Hm].
  destruct (shl_align mx ex _) as [mz ez]. cbn [fst snd] in He, Hm.
  pose proof (binary_round_aux_spec s (Zpos mz) ez loc_Exact ltac:(lia)) as H.
  cbv zeta in H.
  assert (Hd : Zdigits2 (Zpos mz) + ez = Zdigits2 (Zpos mx) + ex).
  { rewrite !Zdigits2_log2 by lia. rewrite Hm, Z.log2_mul_pow2 by lia. lia. }
  rewrite Hd in H.
  destruct (binary_round_aux prec emax s (Zpos mz) ez loc_Exact); auto.
  - destruct H as [-> H]. split; [reflexivity|]. lia.
  - destruct H as (-> & H & _). split; [reflexivity|]. lia.
Qed.


Lemma Zdigits2_le (a b : Z) : 0 <= a <= b -> Zdigits2 a <= Zdigits2 b.
Proof.
  intros [Ha Hab]. destruct (Z.eq_dec a 0) as [->|Hne].
  - apply Zdigits2_nonneg.
  - rewrite !Zdigits2_log2 by lia.
    pose proof (Z.log2_le_mono a b Hab). lia.
Qed.

(** A valid finite double has at most 53 digits and an exponent between
    -1074 and 971. *)
Lemma bounded_inv (m : positive) (e : Z) :
  bounded prec emax m e = true ->
  Zdigits2 (Zpos m) <= 53 /\ -1074 <= e <= 971.
Proof.
  unfold bounded, canonical_mantissa. rewrite andb_true_iff, Z.eqb_eq, Z.leb_le.
  rewrite fexp64. change (emax - prec) with 971. simpl Zdigits2. lia.
Qed.

(** The product of two finite doubles has the sign of the exclusive or
    and is not NaN. *)
Lemma SFmul_finite_signed (sx sy : bool) (mx my : positive) (ex ey : Z) :
  signed (xorb sx sy)
    (SFmul prec emax (S754_finite sx mx ex) (S754_finite sy my ey)).
Proof.
  simpl.
  pose proof (binary_round_aux_spec (xorb sx sy) (Zpos (mx * my)) (ex + ey)
                loc_Exact ltac:(lia)) as H. cbv zeta in H.
  destruct (binary_round_aux _ _ _ _ _ _); simpl; tauto.
Qed.





(** The quotient of two finite doubles has the sign of the exclusive or,
    is not NaN, and is finite when the exponents leave room. *)
Lemma SFdiv_finite_spec (sx sy : bool) (mx my : positive) (ex ey : Z) :
  let q := SFdiv prec emax (S754_finite sx mx ex) (S754_finite sy my ey) in
  signed (xorb sx sy) q /\
  (Z.max (ex - ey) (Zdigits2 (Zpos mx) + ex - ey - 52) <= 971 ->
   finite_or_zero q).
Proof.
  cbn [SFdiv]. unfold SFdiv_core_binary.
  set (e' := Z.min (fexp prec emax (Zdigits2 (Zpos mx) + ex - (Zdigits2 (Zpos my) + ey)))
                   (ex - ey)).
  set (s := ex - ey - e').
  assert (Hs : 0 <= s) by (unfold s, e'; lia).
  set (m' := match s with
             | Z0 => Zpos mx
             | Zpos _ => Z.shiftl (Zpos mx) s
             | Zneg _ => 0
             end).
  assert (Hm' : m' = Zpos mx * 2 ^ s).
  { unfold m'. destruct s as [|p|p] eqn:Hsv; [rewrite Z.pow_0_r; lia | | lia].
    apply Z.shiftl_mul_pow2. lia. }
  assert (Hm'pos : 0 < m').
  { rewrite Hm'. assert (0 < 2 ^ s) by (apply Z.pow_pos_nonneg; lia). nia. }
  pose proof (Z_div_mod m' (Zpos my) ltac:(lia)) as Hdm.
  destruct (Z.div_eucl m' (Zpos my)) as [q r]. destruct Hdm as [Hq Hr].
  assert (Hq0 : 0 <= q) by nia.
  assert (Hqle : q <= m') by nia.
  pose proof (binary_round_aux_spec (xorb sx sy) q e'
                (new_location (Zpos my) r) Hq0) as H.
  cbv zeta in H.
  assert (Hdq : Zdigits2 q + e' <= Zdigits2 (Zpos mx) + ex - ey).
  { transitivity (Zdigits2 m' + e'); [pose proof (Zdigits2_le q m'); lia|].
    rewrite (Zdigits2_log2 m'), (Zdigits2_log2 (Zpos mx)) by lia.
    rewrite Hm', Z.log2_mul_pow2 by lia. unfold s. lia. }
  assert (He' : e' <= ex - ey) by (unfold e'; lia).
  destruct (binary_round_aux _ _ _ _ _ _) as [s'|s'| |s' m e];
    cbn [signed finite_or_zero].
  - tauto.
  - destruct H as [-> H]. split; [reflexivity|]. intros Hb. lia.
  - contradiction.
  - tauto.
Qed.

(** A 63-bit unsigned integer converts to [+0.0] or to a finite double of
    sign [+] and exponent at most 11. *)
Lemma of_uint63_spec_class (z : Z) :
  0 <= z < 2 ^ 63 ->
  match Prim2SF (of_uint63 (Uint63.of_Z z)) with
  | S754_zero s => s = false
  | S754_finite s m e => s = false /\ e <= 11
  | _ => False
  end.
Proof.
  intros Hz. rewrite of_uint63_spec, Uint63.of_Z_spec.
  rewrite Z.mod_small by (change wB with (2 ^ 63); lia).
  destruct z as [|p|p]; [simpl; auto | | lia].
  cbn [binary_normalize].
  pose proof (binary_round_spec false p 0) as H.
  assert (Hd : Zdigits2 (Zpos p) <= 63).
  { rewrite Zdigits2_log2 by lia.
    assert (Z.log2 (Zpos p) < 63) by (apply Z.log2_lt_pow2; lia). lia. }
  destruct (binary_round _ _ _ _ _) as [s'|s'| |s' m e]; try tauto.
  - destruct H as [_ H]. lia.
  - destruct H as [-> H]. split; [reflexivity | lia].
Qed.

(** [x / 60.0] for [x] the conversion of an integer magnitude. *)
Lemma div60_class (s : bool) (x : spec_float) :
  valid_binary x = true ->
  match x with
  | S754_zero s' => s' = s
  | S754_finite s' _ e => s' = s /\ e <= 11
  | _ => False
  end ->
  match SFdiv prec emax x SF_60 with
  | S754_zero s' | S754_finite s' _ _ => s' = s
  | _ => False
  end.
Proof.
  intros Hv Hx. destruct x as [s'|s'| |s' m e]; try contradiction.
  - subst s'. simpl. now destruct s.
  - destruct Hx as [-> He]. apply bounded_inv in Hv as [Hd _].
    destruct (SFdiv_finite_spec s false m 8444249301319680 e (-47)) as [Hs Hf].
    cbv zeta in Hs, Hf. unfold SF_60.
    specialize (Hf ltac:(lia)).
    destruct (SFdiv _ _ _ _) as [s'|s'| |s' m' e']; simpl in *;
      try contradiction; rewrite Hs; now destruct s.
Qed.

End Binary64.

Import Binary64.

(** ** [std::find_if] and [erase] *)

Section FindIf.
Context {A : Type} (p : A -> bool).

Lemma find_if_none (l : list A) :
  find_if p l = None <-> forall x, In x l -> p x = false.
Proof.
  induction l as [|a l IH]; simpl.
  - split; [intros _ x [] | reflexivity].
  - destruct (p a) eqn:Hpa.
    + split; [discriminate|].
      intros H. rewrite (H a) in Hpa by now left. discriminate.
    + destruct (find_if p l) as [[i y]|] eqn:Hf.
      * split; [discriminate|].
        intros H. enough (Hn : Some (i, y) = None) by discriminate.
        apply IH. intros x Hx. apply H. now right.
      * split; [|reflexivity].
        intros _ x [<-|Hx]; [exact Hpa|]. now apply IH.
Qed.

(** A successful scan splits the list at the first element that
    satisfies the predicate, and erasing at the position found removes
    exactly that element. *)
Lemma find_if_some (l : list A) (i : nat) (y : A) :
  find_if p l = Some (i, y) ->
  exists l1 l2,
    l = l1 ++ y :: l2 /\ List.length l1 = i /\ p y = true /\
    (forall x, In x l1 -> p x = false) /\
    erase i l = l1 ++ l2.
Proof.
  revert i. induction l as [|a l IH]; simpl; intros i Hf; [discriminate|].
  destruct (p a) eqn:Hpa.
  - injection Hf as <- <-. exists [], l. simpl. repeat split; auto.
    intros x [].
  - destruct (find_if p l) as [[j z]|] eqn:Hl; [|discriminate].
    injection Hf as <- <-.
    destruct (IH j eq_refl) as (l1 & l2 & -> & Hlen & Hy & Hl1 & Her).
    exists (a :: l1), l2. simpl. repeat split; auto.
    + intros x [<-|Hx]; auto.
    + now rewrite Her.
Qed.

Lemma find_if_first (l1 l2 : list A) (y : A) :
  p y = true -> (forall x, In x l1 -> p x = false) ->
  find_if p (l1 ++ y :: l2) = Some (List.length l1, y).
Proof.
  intros Hy. induction l1 as [|a l1 IH]; simpl; intros Hl1.
  - now rewrite Hy.
  - rewrite (Hl1 a) by now left.
    rewrite IH; [reflexivity|]. intros x Hx. apply Hl1. now right.
Qed.

Lemma erase_middle (l1 l2 : list A) (y : A) :
  erase (List.length l1) (l1 ++ y :: l2) = l1 ++ l2.
Proof. induction l1 as [|a l1 IH]; simpl; [reflexivity | now rewrite IH]. Qed.

End FindIf.

(** ** [parkCar], [testAddCar]: effect on the store *)

Lemma has_room_true (lot : ParkingLot) :
  has_room lot = true <-> (getCarCount lot < 100)%nat.
Proof. unfold has_room, getCarCount, MAX_CAPACITY. apply Nat.ltb_lt. Qed.

Lemma has_room_false (lot : ParkingLot) :
  has_room lot = false <-> (100 <= getCarCount lot)%nat.
Proof. unfold has_room, getCarCount, MAX_CAPACITY. apply Nat.ltb_ge. Qed.

(** What a defined call of [parkCar] does: the counter always moves on by
    one; a record carrying the old counter value is appended when there is
    room, and nothing else changes. *)
Lemma parkCar_inv (now : Z) (inp : ParkInput) (lot lot' : ParkingLot) :
  parkCar now inp lot = Some lot' ->
  nextCarID lot < INT_MAX /\
  nextCarID lot' = nextCarID lot + 1 /\
  silentMode lot' = silentMode lot /\
  (if has_room lot
   then exists c, cars lot' = cars lot ++ [c] /\ id c = nextCarID lot /\
                  ownerName c = in_ownerName inp /\
                  hourlyRate c = in_hourlyRate inp
   else cars lot' = cars lot).
Proof.
  unfold parkCar, post_increment_nextCarID.
  destruct (nextCarID lot <? INT_MAX) eqn:Hlt; [|discriminate].
  apply Z.ltb_lt in Hlt.
  match goal with |- context [Car_make ?a ?b ?c ?d ?e ?f ?g ?h ?i ?j ?k ?l ?m ?n ?o ?p ?q] =>
    set (car := Car_make a b c d e f g h i j k l m n o p q) end.
  assert (Hroom : has_room (set_nextCarID lot (nextCarID lot + 1)) = has_room lot)
    by reflexivity.
  rewrite Hroom.
  destruct (0 <? in_parkingHours inp)%float.
  - destruct (backdated now (in_parkingHours inp)) as [t|]; simpl; [|discriminate].
    destruct (has_room lot); intros [= <-]; simpl; repeat split; auto.
    eexists; repeat split; reflexivity.
  - destruct (has_room lot); intros [= <-]; simpl; repeat split; auto.
    eexists; repeat split; reflexivity.
Qed.

Lemma parkCar_defined_iff (now : Z) (inp : ParkInput) (lot : ParkingLot) :
  parkCar_defined now inp lot = true <-> exists lot', parkCar now inp lot = Some lot'.
Proof.
  unfold parkCar_defined, parkCar, post_increment_nextCarID.
  destruct (nextCarID lot <? INT_MAX); simpl.
  2:{ split; [discriminate | intros [? ?]; discriminate]. }
  destruct (0 <? in_parkingHours inp)%float.
  - destruct (backdated now (in_parkingHours inp)); simpl.
    + split; [|reflexivity]. intros _.
      match goal with |- context [if ?b then _ else _] => destruct b end; eauto.
    + split; [discriminate | intros [? ?]; discriminate].
  - split; [|reflexivity]. intros _.
    match goal with |- context [if ?b then _ else _] => destruct b end; eauto.
Qed.

Lemma testAddCar_inv (car : Car) (lot : ParkingLot) :
  nextCarID (testAddCar car lot) = nextCarID lot /\
  silentMode (testAddCar car lot) = silentMode lot /\
  cars (testAddCar car lot) = if has_room lot then cars lot ++ [car] else cars lot.
Proof. unfold testAddCar. destruct (has_room lot); simpl; auto. Qed.

Lemma removeCarByIdAndOwner_inv (now wanted : Z) (owner : string)
    (lot : ParkingLot) (r : Removal) :
  removeCarByIdAndOwner now wanted owner lot = Some r ->
  nextCarID (lot_after r) = nextCarID lot /\
  silentMode (lot_after r) = silentMode lot /\
  (List.length (cars (lot_after r)) <= List.length (cars lot))%nat.
Proof.
  unfold removeCarByIdAndOwner.
  destruct (find_if _ (cars lot)) as [[i it]|] eqn:Hf.
  - destruct (elapsed_hours now (parkingTime it)); [|discriminate].
    intros [= <-]; simpl. repeat split; auto.
    apply find_if_some in Hf as (l1 & l2 & -> & _ & _ & _ & ->).
    rewrite !length_app. simpl. lia.
  - intros [= <-]; simpl. auto.
Qed.

(** ** Runs: the counter and the occupancy *)

(** One step of a run. A record is reported as admitted exactly when
    [parkCar] found room, and it carries the value the counter had. *)
Lemma step_inv (op : Op) (lot lot' : ParkingLot) (adm : option Car) :
  step op lot = Some (lot', adm) ->
  nextCarID lot <= nextCarID lot' /\
  ((getCarCount lot <= 100)%nat -> (getCarCount lot' <= 100)%nat) /\
  match adm with
  | Some c => id c = nextCarID lot /\ nextCarID lot' = nextCarID lot + 1 /\
              cars lot' = cars lot ++ [c] /\ has_room lot = true /\
              exists now inp, op = OpPark now inp
  | None => match op with
            | OpPark _ _ => has_room lot = false /\ cars lot' = cars lot /\
                            nextCarID lot' = nextCarID lot + 1
            | _ => nextCarID lot' = nextCarID lot
            end
  end.
Proof.
  destruct op as [now inp|car|now wanted owner]; simpl.
  - destruct (parkCar now inp lot) as [lot1|] eqn:Hp; [|discriminate].
    apply parkCar_inv in Hp as (_ & Hn & _ & Hc).
    destruct (has_room lot) eqn:Hroom.
    + destruct Hc as (c & Hcars & Hid & _).
      rewrite Hcars, length_app, map_app. cbn [map]. rewrite last_last.
      cbn [List.length].
      replace (_ <? _)%nat with true by (symmetry; apply Nat.ltb_lt; lia).
      intros [= <- <-]. apply has_room_true in Hroom. unfold getCarCount in *.
      repeat split; eauto; try lia.
      rewrite Hcars, length_app. simpl. lia.
    + rewrite Hc, Nat.ltb_irrefl. intros [= <- <-].
      unfold getCarCount. rewrite Hc. repeat split; auto; lia.
  - intros [= <- <-].
    destruct (testAddCar_inv car lot) as (Hn & _ & Hc).
    repeat split; auto; [lia|].
    unfold getCarCount. rewrite Hc.
    destruct (has_room lot) eqn:Hroom; [|auto].
    apply has_room_true in Hroom. unfold getCarCount in Hroom.
    rewrite length_app. simpl. lia.
  - destruct (removeCarByIdAndOwner now wanted owner lot) as [r|] eqn:Hr;
      [|discriminate].
    simpl. intros [= <- <-].
    apply removeCarByIdAndOwner_inv in Hr as (Hn & _ & Hlen).
    unfold getCarCount. repeat split; auto; lia.
Qed.

Lemma StronglySorted_lt_NoDup (l : list Z) : StronglySorted Z.lt l -> NoDup l.
Proof.
  induction 1 as [|a l _ IH Hall]; constructor; auto.
  intros Hin. rewrite Forall_forall in Hall. specialize (Hall a Hin). lia.
Qed.

(** The invariant of a run from any store: the counter never goes back,
    the identifiers handed out lie between its old and its new value and
    come out in increasing order, and the capacity bound is kept. *)
Lemma run_inv (ops : list Op) :
  forall (lot0 lot : ParkingLot) (ids : list Z),
    run ops lot0 = Some (lot, ids) ->
    nextCarID lot0 <= nextCarID lot /\
    Forall (fun i => nextCarID lot0 <= i < nextCarID lot) ids /\
    StronglySorted Z.lt ids /\
    ((getCarCount lot0 <= 100)%nat -> (getCarCount lot <= 100)%nat).
Proof.
  induction ops as [|op ops IH]; simpl; intros lot0 lot ids Hrun.
  - injection Hrun as <- <-. repeat split; auto; try lia. constructor.
  - destruct (step op lot0) as [[lot1 adm]|] eqn:Hstep; [|discriminate].
    destruct (run ops lot1) as [[lot2 ids']|] eqn:Hrest; [|discriminate].
    injection Hrun as <- <-.
    apply step_inv in Hstep as (Hmono & Hcap & Hadm).
    destruct (IH _ _ _ Hrest) as (Hmono' & Hids & Hsorted & Hcap').
    assert (Hweak : Forall (fun i => nextCarID lot0 <= i < nextCarID lot2) ids').
    { eapply Forall_impl; [|exact Hids]. simpl. intros i Hi. lia. }
    destruct adm as [c|].
    + destruct Hadm as (Hid & Hnext & _).
      repeat split; auto; try lia.
      * constructor; [lia | exact Hweak].
      * constructor; [exact Hsorted|].
        eapply Forall_impl; [|exact Hids]. simpl. intros i Hi. lia.
    + repeat split; auto; lia.
Qed.

(** Runs are defined for as long as the counter has room: [n] calls of
    [parkCar] that ask for no backdating succeed from any store whose
    counter is at least [n] below [INT_MAX], and move the counter by [n]. *)
Lemma run_parks_defined (now : Z) (inp : ParkInput) (n : nat) :
  (0 <? in_parkingHours inp)%float = false ->
  forall lot,
    nextCarID lot + Z.of_nat n <= INT_MAX ->
    exists lot' ids,
      run (List.repeat (OpPark now inp) n) lot = Some (lot', ids) /\
      nextCarID lot' = nextCarID lot + Z.of_nat n.
Proof.
  intros Hnow. induction n as [|n IH]; intros lot Hroom.
  - exists lot, []. split; [reflexivity | simpl; lia].
  - assert (Hdef : parkCar_defined now inp lot = true).
    { unfold parkCar_defined. rewrite Hnow, andb_true_r.
      apply Z.ltb_lt. lia. }
    apply parkCar_defined_iff in Hdef as [lot1 Hp].
    pose proof (parkCar_inv _ _ _ _ Hp) as (_ & Hn & _).
    destruct (IH lot1 ltac:(lia)) as (lot' & ids & Hrun & Hnext).
    cbn [List.repeat run step]. rewrite Hp, Hrun.
    eexists _, _. split; [reflexivity | lia].
Qed.

(** ** The claims on the store *)

(** C2. Along every run from the empty store (calls of [parkCar] and of the
    test-only [testAddCar], removals in between), the occupancy count never
    exceeds 100. Once 100 records are held, an admission creates no record
    and raises no error: [testAddCar] returns the store as it was, and a
    call of [parkCar] returns normally with the same 100 records. *)
Theorem capacity_never_exceeded (ops : list Op) (lot : ParkingLot) (ids : list Z) :
  run ops ParkingLot_new = Some (lot, ids) ->
  (getCarCount lot <= 100)%nat /\
  (getCarCount lot = 100%nat ->
   (forall car, testAddCar car lot = lot) /\
   (forall now inp,
      parkCar_defined now inp lot = true ->
      exists lot', parkCar now inp lot = Some lot' /\
                   cars lot' = cars lot /\ getCarCount lot' = 100%nat)).
Proof.
  intros Hrun. apply run_inv in Hrun as (_ & _ & _ & Hcap).
  split; [apply Hcap; unfold getCarCount; simpl; lia|].
  intros Hfull.
  assert (Hroom : has_room lot = false) by (apply has_room_false; lia).
  split.
  - intros car. unfold testAddCar. now rewrite Hroom.
  - intros now inp Hdef.
    apply parkCar_defined_iff in Hdef as [lot' Hp]. exists lot'.
    pose proof (parkCar_inv _ _ _ _ Hp) as (_ & _ & _ & Hc).
    rewrite Hroom in Hc. unfold getCarCount in *. rewrite Hc. auto.
Qed.

Lemma capacity_never_exceeded_witness :
  run (List.repeat (OpPark t0 sample_input) 101) ParkingLot_new
    = Some (parked 101, List.map Z.of_nat (List.seq 1001 100)) /\
  (getCarCount (parked 101) <= 100)%nat /\
  (getCarCount (parked 101) = 100%nat ->
   (forall car, testAddCar car (parked 101) = parked 101) /\
   (forall now inp,
      parkCar_defined now inp (parked 101) = true ->
      exists lot', parkCar now inp (parked 101) = Some lot' /\
                   cars lot' = cars (parked 101) /\
                   getCarCount lot' = 100%nat)).
Proof.
  assert (H : run (List.repeat (OpPark t0 sample_input) 101) ParkingLot_new
              = Some (parked 101, List.map Z.of_nat (List.seq 1001 100)))
    by (vm_compute; reflexivity).
  split; [exact H|].
  exact (capacity_never_exceeded _ _ _ H).
Defined.




(** C5. The counter starts at 1001. Along every run from the empty store,
    whatever removals and test additions are interleaved, the identifiers
    given to the successful admissions of [parkCar] are pairwise distinct:
    they come out in strictly increasing order, all at least 1001 and below
    the current counter. No operation ever lowers the counter: a removal
    and a test addition leave it unchanged, and an admission that follows
    receives the current counter value, which no earlier admission had. *)
Theorem identifiers_never_reused (ops : list Op) (lot : ParkingLot) (ids : list Z) :
  run ops ParkingLot_new = Some (lot, ids) ->
  nextCarID ParkingLot_new = 1001 /\
  NoDup ids /\
  StronglySorted Z.lt ids /\
  Forall (fun i => 1001 <= i < nextCarID lot) ids /\
  (forall op lot' adm,
     step op lot = Some (lot', adm) ->
     nextCarID lot <= nextCarID lot' /\
     (forall now wanted owner,
        op = OpRemove now wanted owner -> nextCarID lot' = nextCarID lot) /\
     (forall c, adm = Some c ->
                id c = nextCarID lot /\ id c < nextCarID lot' /\ ~ In (id c) ids)).
Proof.
  intros Hrun. apply run_inv in Hrun as (_ & Hids & Hsorted & _).
  change (nextCarID ParkingLot_new) with 1001 in Hids.
  split; [reflexivity|].
  split; [now apply StronglySorted_lt_NoDup|].
  split; [exact Hsorted|]. split; [exact Hids|].
  intros op lot' adm Hstep.
  apply step_inv in Hstep as (Hmono & _ & Hadm).
  split; [exact Hmono|]. split.
  - intros now wanted owner ->. destruct adm as [c|]; [|exact Hadm].
    destruct Hadm as (_ & _ & _ & _ & now' & inp & Hop). discriminate.
  - intros c ->. destruct Hadm as (Hid & Hn & _).
    repeat split; [exact Hid | lia |].
    intros Hin. rewrite Forall_forall in Hids. specialize (Hids _ Hin). lia.
Qed.

Lemma identifiers_never_reused_witness :
  exists lot,
    run sample_run ParkingLot_new = Some (lot, [1001; 1002; 1003]) /\
    NoDup [1001; 1002; 1003].
Proof.
  destruct (run sample_run ParkingLot_new) as [[lot ids]|] eqn:Hrun;
    [|vm_compute in Hrun; discriminate].
  assert (Hids : ids = [1001; 1002; 1003])
    by (vm_compute in Hrun; injection Hrun as _ <-; reflexivity).
  exists lot. subst ids. split; [reflexivity|].
  exact (proj1 (proj2 (identifiers_never_reused _ _ _ Hrun))).
Defined.

Lemma owner_matches_iff (wanted : Z) (owner : string) (c : Car) :
  owner_matches wanted owner c = true <-> id c = wanted /\ ownerName c = owner.
Proof.
  unfold owner_matches. rewrite andb_true_iff, Z.eqb_eq, String.eqb_eq.
  reflexivity.
Qed.

Lemma owner_matches_false_iff (wanted : Z) (owner : string) (c : Car) :
  owner_matches wanted owner c = false <-> ~ (id c = wanted /\ ownerName c = owner).
Proof.
  rewrite <- owner_matches_iff. destruct (owner_matches wanted owner c);
    split; congruence.
Qed.

(** C3. [removeCarByIdAndOwner] answers [true] exactly when some stored
    record has the wanted id and an owner name equal to the given string,
    character for character. When no record matches both, the answer is
    [false], no bill is built and the store is returned as it was. When a
    record matches, the first such record in insertion order is the one
    erased, the others keeping their order. *)
Theorem removal_matches_id_and_owner
    (now wanted : Z) (owner : string) (lot : ParkingLot) :
  ((forall c, In c (cars lot) -> ~ (id c = wanted /\ ownerName c = owner)) ->
   removeCarByIdAndOwner now wanted owner lot =
     Some {| removed := false; bill := None; bill_saved := false;
             lot_after := lot |}) /\
  (forall l1 c l2,
     cars lot = l1 ++ c :: l2 ->
     id c = wanted -> ownerName c = owner ->
     (forall x, In x l1 -> ~ (id x = wanted /\ ownerName x = owner)) ->
     in_int64 (now - parkingTime c) = true ->
     exists b,
       removeCarByIdAndOwner now wanted owner lot =
         Some {| removed := true; bill := Some b;
                 bill_saved := negb (silentMode lot);
                 lot_after := set_cars lot (l1 ++ l2) |}) /\
  (forall r,
     removeCarByIdAndOwner now wanted owner lot = Some r ->
     (removed r = true <->
      exists c, In c (cars lot) /\ id c = wanted /\ ownerName c = owner) /\
     (removed r = false -> lot_after r = lot /\ bill r = None)).
Proof.
  split; [|split].
  - intros Hnone. unfold removeCarByIdAndOwner.
    assert (Hf : find_if (owner_matches wanted owner) (cars lot) = None).
    { apply find_if_none. intros x Hx. apply owner_matches_false_iff. auto. }
    now rewrite Hf.
  - intros l1 c l2 Hcars Hid Hown Hl1 Hrange. unfold removeCarByIdAndOwner.
    rewrite Hcars.
    rewrite (find_if_first (owner_matches wanted owner) l1 l2 c).
    + unfold elapsed_hours, elapsed_minutes, chrono.sub. rewrite Hrange.
      simpl. rewrite erase_middle. eexists. reflexivity.
    + now apply owner_matches_iff.
    + intros x Hx. apply owner_matches_false_iff. auto.
  - intros r Hr. unfold removeCarByIdAndOwner in Hr.
    destruct (find_if _ (cars lot)) as [[i it]|] eqn:Hf.
    + destruct (elapsed_hours now (parkingTime it)); [|discriminate Hr].
      injection Hr as <-. simpl.
      apply find_if_some in Hf as (l1 & l2 & Hcars & _ & Hit & _).
      apply owner_matches_iff in Hit as [Hid Hown].
      split; [split; [intros _ | reflexivity] | discriminate].
      exists it. rewrite Hcars. split; [|auto].
      apply in_or_app. right. now left.
    + injection Hr as <-. simpl.
      split; [split; [discriminate|] | auto].
      intros (c & Hin & Hid & Hown).
      pose proof (proj1 (find_if_none _ _) Hf c Hin) as Hc.
      apply owner_matches_false_iff in Hc. tauto.
Qed.

(** The scenario of the specification: a record of owner ["John Doe"] is
    not removed under the name ["john doe"] nor with a space added; under
    its exact name it is, and a lookup of its id then finds nothing. *)
Example removal_is_case_and_space_sensitive :
  let lot := testAddCar (createCar t0 1001 "John Doe" false 50) ParkingLot_new in
  option_map removed (removeCarByIdAndOwner t0 1001 "john doe" lot) = Some false /\
  option_map removed (removeCarByIdAndOwner t0 1001 "John Doe " lot) = Some false /\
  option_map removed (removeCarByIdAndOwner t0 1001 "John Doe" lot) = Some true /\
  option_map (fun r => id (getCarByID t0 1001 (lot_after r)))
             (removeCarByIdAndOwner t0 1001 "John Doe" lot) = Some 0.
Proof. vm_compute. repeat split. Qed.

(** C9, as the code has it. [getCarByID] scans the records in order and
    returns (a copy of) the first one whose id is the wanted one. When no
    record has that id it raises nothing and returns a default-constructed
    record, whose id is 0: empty strings, both flags off, but the default
    hourly rate 50.0 and the time of the call as parking time. *)
Theorem lookup_first_match_or_sentinel (now wanted : Z) (lot : ParkingLot) :
  (forall l1 c l2,
     cars lot = l1 ++ c :: l2 -> id c = wanted ->
     (forall x, In x l1 -> id x <> wanted) ->
     getCarByID now wanted lot = c) /\
  ((forall x, In x (cars lot) -> id x <> wanted) ->
   getCarByID now wanted lot = Car_default now /\
   id (getCarByID now wanted lot) = 0 /\
   hourlyRate (getCarByID now wanted lot) = 50%float /\
   parkingTime (getCarByID now wanted lot) = now) /\
  ((exists c, In c (cars lot) /\ id c = wanted) ->
   In (getCarByID now wanted lot) (cars lot) /\
   id (getCarByID now wanted lot) = wanted).
Proof.
  unfold getCarByID. split; [|split].
  - intros l1 c l2 Hcars Hid Hl1. rewrite Hcars.
    rewrite (find_if_first (fun car => id car =? wanted) l1 l2 c);
      [reflexivity | now apply Z.eqb_eq |].
    intros x Hx. apply Z.eqb_neq. auto.
  - intros Hnone.
    assert (Hf : find_if (fun car => id car =? wanted) (cars lot) = None).
    { apply find_if_none. intros x Hx. apply Z.eqb_neq. auto. }
    rewrite Hf. repeat split.
  - intros (c & Hin & Hid).
    destruct (find_if _ (cars lot)) as [[i y]|] eqn:Hf.
    + apply find_if_some in Hf as (l1 & l2 & Hcars & _ & Hy & _).
      apply Z.eqb_eq in Hy. split; [|exact Hy].
      rewrite Hcars. apply in_or_app. right. now left.
    + pose proof (proj1 (find_if_none _ _) Hf c Hin) as Hc.
      apply Z.eqb_neq in Hc. contradiction.
Qed.

(** C9, the claim as stated fails: the record returned when nothing
    matches is not zero-valued. Looking up 9999 in the new store at the
    clock reading [t0] returns a record with id 0 whose hourly rate is 50.0
    and whose parking time is [t0]. *)
Lemma sentinel_is_not_zero_valued :
  (forall x, In x (cars ParkingLot_new) -> id x <> 9999) /\
  id (getCarByID t0 9999 ParkingLot_new) = 0 /\
  hourlyRate (getCarByID t0 9999 ParkingLot_new) = 50%float /\
  (hourlyRate (getCarByID t0 9999 ParkingLot_new) =? 0)%float = false /\
  parkingTime (getCarByID t0 9999 ParkingLot_new) = t0 /\
  ~ zero_valued (getCarByID t0 9999 ParkingLot_new).
Proof.
  split; [intros x []|]. repeat (split; [reflexivity|]).
  unfold zero_valued. intros H. decompose [and] H.
  match goal with
  | Hrate : (_ =? _)%float = true |- _ => vm_compute in Hrate; discriminate Hrate
  end.
Qed.

(** C10. [testAddCar] never touches the counter. Below 100 records it
    appends the record exactly as supplied, whatever ids the store already
    holds; so adding the same record twice leaves two records with the same
    id in the store. At 100 records (or more) it returns the store
    unchanged. *)
Theorem testAddCar_appends_verbatim (car : Car) (lot : ParkingLot) :
  nextCarID (testAddCar car lot) = nextCarID lot /\
  ((getCarCount lot < 100)%nat ->
   cars (testAddCar car lot) = cars lot ++ [car]) /\
  ((getCarCount lot < 99)%nat ->
   cars (testAddCar car (testAddCar car lot)) = cars lot ++ [car; car]) /\
  ((In car (cars lot) /\ getCarCount lot < 100)%nat ->
   exists l1 l2, cars (testAddCar car lot) = l1 ++ car :: l2 ++ [car]) /\
  ((100 <= getCarCount lot)%nat -> testAddCar car lot = lot).
Proof.
  destruct (testAddCar_inv car lot) as (Hn & _ & Hc).
  split; [exact Hn|].
  assert (Hlt : (getCarCount lot < 100)%nat ->
                cars (testAddCar car lot) = cars lot ++ [car]).
  { intros Hroom. apply has_room_true in Hroom. now rewrite Hroom in Hc. }
  split; [exact Hlt|]. split; [|split].
  - intros Hroom.
    destruct (testAddCar_inv car (testAddCar car lot)) as (_ & _ & Hc2).
    assert (Hroom2 : has_room (testAddCar car lot) = true).
    { apply has_room_true. unfold getCarCount in *.
      rewrite Hlt by lia. rewrite length_app. simpl. lia. }
    rewrite Hroom2, Hlt in Hc2 by lia.
    now rewrite Hc2, <- app_assoc.
  - intros [Hin Hroom]. rewrite (Hlt Hroom).
    apply in_split in Hin as (l1 & l2 & ->).
    exists l1, l2. now rewrite <- app_assoc.
  - intros Hfull. apply has_room_false in Hfull.
    unfold testAddCar. now rewrite Hfull.
Qed.

(** Two records of id 7 side by side, and the counter where it was. *)
Example testAddCar_duplicate_ids :
  let c := createCar t0 7 "A" false 50 in
  let lot := testAddCar c (testAddCar c ParkingLot_new) in
  List.map id (cars lot) = [7; 7] /\ nextCarID lot = 1001.
Proof. vm_compute. split; reflexivity. Qed.

(** ** The bill and the fee *)

(** Subtracting [0.0] changes no double, not even [-0.0] or NaN. *)
Lemma double_sub_zero (x : float) : (x - 0)%float = x.
Proof.
  apply Prim2SF_inj. rewrite FloatAxioms.sub_spec.
  change (Prim2SF 0) with (S754_zero false).
  destruct (Prim2SF x) as [[|]|[|]| |[|] m e]; reflexivity.
Qed.

(** The bill and [calculateFee] run the same operations on [hours]. *)
Lemma bill_total_fee_of_hours (hours : float) (c : Car) :
  bill_total (bill_of_hours hours c) = fee_of_hours hours c.
Proof.
  unfold bill_of_hours, fee_of_hours.
  destruct (dynamicPricing c); [destruct (5 <? hours)%float|]; reflexivity.
Qed.

Lemma bill_breakdown (hours : float) (c : Car) :
  let b := bill_of_hours hours c in
  bill_gross b = (hours * hourlyRate c)%float /\
  bill_total b = (bill_gross b - bill_discount b + bill_gst b)%float /\
  bill_gst b = (if dynamicPricing c
                then (bill_gross b - bill_discount b) * 0.18
                else 0)%float /\
  bill_discount b = (if dynamicPricing c && (5 <? hours)
                     then bill_gross b * 0.30
                     else 0)%float.
Proof.
  unfold bill_of_hours.
  destruct (dynamicPricing c); [destruct (5 <? hours)%float|]; simpl;
    rewrite ?double_sub_zero; repeat split; reflexivity.
Qed.

(** C6. When [removeCarByIdAndOwner] removes a record, the total of the
    bill it builds is what [calculateFee] returns for that record at the
    same clock reading, and the breakdown is that of the fee: the hours are
    the elapsed hours of the record, the gross amount is [hours * hourlyRate]
    before any discount, the discount is [gross * 0.30] under dynamic
    pricing above 5 hours and 0 otherwise, the tax is
    [(gross - discount) * 0.18] under dynamic pricing and 0 otherwise, and
    the total is the gross amount minus the discount plus the tax. *)
Theorem bill_total_equals_calculateFee
    (now wanted : Z) (owner : string) (lot : ParkingLot) (r : Removal) :
  removeCarByIdAndOwner now wanted owner lot = Some r ->
  removed r = true ->
  exists l1 c l2 b,
    cars lot = l1 ++ c :: l2 /\
    cars (lot_after r) = l1 ++ l2 /\
    bill r = Some b /\
    bill_id b = id c /\
    calculateFee now c = Some (bill_total b) /\
    elapsed_hours now (parkingTime c) = Some (bill_hours b) /\
    bill_rate b = hourlyRate c /\
    bill_gross b = (bill_hours b * hourlyRate c)%float /\
    bill_discount b = (if dynamicPricing c && (5 <? bill_hours b)
                       then bill_gross b * 0.30
                       else 0)%float /\
    bill_gst b = (if dynamicPricing c
                  then (bill_gross b - bill_discount b) * 0.18
                  else 0)%float /\
    bill_total b = (bill_gross b - bill_discount b + bill_gst b)%float.
Proof.
  unfold removeCarByIdAndOwner. intros Hr Hrem.
  destruct (find_if _ (cars lot)) as [[i it]|] eqn:Hf.
  - destruct (elapsed_hours now (parkingTime it)) as [hours|] eqn:Hh;
      [|discriminate].
    injection Hr as <-. simpl.
    apply find_if_some in Hf as (l1 & l2 & Hcars & _ & _ & _ & Her).
    exists l1, it, l2, (bill_of_hours hours it).
    split; [exact Hcars|]. split; [exact Her|].
    split; [reflexivity|]. split.
    { unfold bill_of_hours.
      destruct (dynamicPricing it); [destruct (5 <? hours)%float|];
        reflexivity. }
    split.
    { unfold calculateFee. rewrite Hh. simpl.
      now rewrite bill_total_fee_of_hours. }
    assert (Hhours : bill_hours (bill_of_hours hours it) = hours).
    { unfold bill_of_hours.
      destruct (dynamicPricing it); [destruct (5 <? hours)%float|];
        reflexivity. }
    assert (Hrate : bill_rate (bill_of_hours hours it) = hourlyRate it).
    { unfold bill_of_hours.
      destruct (dynamicPricing it); [destruct (5 <? hours)%float|];
        reflexivity. }
    rewrite Hhours.
    destruct (bill_breakdown hours it) as (Hgross & Htotal & Hgst & Hdisc).
    repeat split; assumption.
  - injection Hr as <-. discriminate.
Qed.

Lemma bill_total_equals_calculateFee_witness :
  exists r,
    removeCarByIdAndOwner t0 1001 "John Doe" (parked 2) = Some r /\
    removed r = true /\
    exists l1 c l2 b,
      cars (parked 2) = l1 ++ c :: l2 /\
      cars (lot_after r) = l1 ++ l2 /\
      bill r = Some b /\
      bill_id b = id c /\
      calculateFee t0 c = Some (bill_total b) /\
      bill_gross b = (bill_hours b * hourlyRate c)%float /\
      bill_total b = (bill_gross b - bill_discount b + bill_gst b)%float.
Proof.
  destruct (removeCarByIdAndOwner t0 1001 "John Doe" (parked 2)) as [r|] eqn:Hr;
    [|vm_compute in Hr; discriminate].
  assert (Hrem : removed r = true)
    by (vm_compute in Hr; injection Hr as <-; reflexivity).
  exists r. split; [reflexivity|]. split; [exact Hrem|].
  destruct (bill_total_equals_calculateFee _ _ _ _ _ Hr Hrem)
    as (l1 & c & l2 & b & H1 & H2 & H3 & H4 & H5 & _ & _ & H6 & _ & _ & H7).
  exists l1, c, l2, b. repeat split; assumption.
Defined.

(** C7. With dynamic pricing and an hourly rate of 100: after exactly 300
    whole minutes (5.0 hours, no discount) the fee is 590.0; after 360
    whole minutes (6.0 hours) the discount applies and the fee is the
    double nearest to 495.6, within 1e-9 of it and below 600. *)
Theorem dynamic_pricing_boundary (now : Z) (r : Car) :
  dynamicPricing r = true ->
  hourlyRate r = 100%float ->
  (elapsed_minutes now (parkingTime r) = Some 300 ->
   elapsed_hours now (parkingTime r) = Some 5%float /\
   calculateFee now r = Some 590%float) /\
  (elapsed_minutes now (parkingTime r) = Some 360 ->
   elapsed_hours now (parkingTime r) = Some 6%float /\
   exists fee,
     calculateFee now r = Some fee /\
     fee = 495.6%float /\
     (fee <? 600)%float = true /\
     (abs (fee - 495.6) <? 1e-9)%float = true).
Proof.
  intros Hdyn Hrate. unfold calculateFee, elapsed_hours, fee_of_hours.
  rewrite Hdyn, Hrate. split; intros ->; simpl.
  - split; vm_compute; reflexivity.
  - split; [vm_compute; reflexivity|].
    eexists. split; [reflexivity|]. vm_compute. repeat split.
Qed.

Lemma dynamic_pricing_boundary_witness :
  let five := createCar (t0 - 300 * chrono.ticks_per_minute) 1 "A" true 100 in
  let six := createCar (t0 - 360 * chrono.ticks_per_minute - 59) 1 "A" true 100 in
  calculateFee t0 five = Some 590%float /\
  exists fee, calculateFee t0 six = Some fee /\ (fee <? 600)%float = true.
Proof.
  split.
  - apply (dynamic_pricing_boundary t0
             (createCar (t0 - 300 * chrono.ticks_per_minute) 1 "A" true 100));
      reflexivity.
  - destruct (dynamic_pricing_boundary t0
               (createCar (t0 - 360 * chrono.ticks_per_minute - 59) 1 "A" true 100)
               eq_refl eq_refl) as [_ H].
    destruct (H eq_refl) as (_ & fee & Hfee & _ & Hlt & _).
    exists fee. split; [exact Hfee | exact Hlt].
Defined.

(** ** Sign and value of the fee *)

Lemma Prim2SF_60 : Prim2SF 60 = SF_60.
Proof. reflexivity. Qed.

Lemma valid_binary_SFopp (x : spec_float) :
  valid_binary (SFopp x) = valid_binary x.
Proof. now destruct x. Qed.

(** The hours of a stay: the clamp at [0.0] on the quotient is a clamp at
    zero on the minute count, and the result is [+0.0] or a positive finite
    double. *)
Lemma hours_of_minutes_spec (m : Z) :
  - 2 ^ 63 < m < 2 ^ 63 ->
  hours_of_minutes m = (Double.of_long (Z.max 0 m) / 60)%float /\
  match Prim2SF (hours_of_minutes m) with
  | S754_zero s | S754_finite s _ _ => s = false
  | _ => False
  end.
Proof.
  intros Hm. unfold hours_of_minutes, Double.max.
  set (x := (Double.of_long m / 60)%float).
  assert (Hx : match Prim2SF x with
               | S754_zero s | S754_finite s _ _ => s = (m <? 0)
               | _ => False
               end).
  { unfold x, Double.of_long. rewrite FloatAxioms.div_spec, Prim2SF_60.
    destruct (m <? 0) eqn:Hneg.
    - apply Z.ltb_lt in Hneg. rewrite FloatAxioms.opp_spec.
      apply div60_class.
      + rewrite valid_binary_SFopp. apply Prim2SF_valid.
      + pose proof (of_uint63_spec_class (- m) ltac:(lia)) as H.
        destruct (Prim2SF (of_uint63 (of_Z (- m)))); simpl; try tauto.
        * now subst.
        * destruct H as [-> H]. auto.
    - apply Z.ltb_ge in Hneg.
      apply div60_class; [apply Prim2SF_valid|].
      apply (of_uint63_spec_class m). lia. }
  rewrite FloatAxioms.ltb_spec. change (Prim2SF 0) with (S754_zero false).
  destruct (m <? 0) eqn:Hneg.
  - apply Z.ltb_lt in Hneg. replace (Z.max 0 m) with 0 by lia.
    change (Double.of_long 0 / 60)%float with 0%float.
    destruct (Prim2SF x) as [s|s| |s mx ex]; try contradiction; subst s;
      simpl; auto.
  - apply Z.ltb_ge in Hneg. replace (Z.max 0 m) with m by lia. fold x.
    destruct (Prim2SF x) as [s|s| |s mx ex] eqn:Hpx; try contradiction;
      subst s; cbn [SFltb SFcompare].
    + assert (x = 0%float) as -> by (apply Prim2SF_inj; exact Hpx).
      split; reflexivity.
    + rewrite Hpx. auto.
Qed.



Lemma ge0_leb (x : float) : ge0 (Prim2SF x) -> (0 <=? x)%float = true.
Proof.
  rewrite FloatAxioms.leb_spec. change (Prim2SF 0) with (S754_zero false).
  destruct (Prim2SF x) as [s|s| |s m e]; simpl; try tauto; now intros ->.
Qed.

Lemma zero_class_eqb (x : float) : zero_class (Prim2SF x) -> (x =? 0)%float = true.
Proof.
  rewrite FloatAxioms.eqb_spec. change (Prim2SF 0) with (S754_zero false).
  destruct (Prim2SF x); simpl; tauto.
Qed.





Lemma SFmul_zero_class_l (x y : spec_float) :
  zero_class x ->
  match y with S754_zero _ | S754_finite _ _ _ => True | _ => False end ->
  zero_class (SFmul prec emax x y).
Proof. destruct x, y; simpl; tauto. Qed.


Lemma SFadd_zero_class (x y : spec_float) :
  zero_class x -> zero_class y -> zero_class (SFadd prec emax x y).
Proof. destruct x as [[|]| | |], y as [[|]| | |]; simpl; tauto. Qed.

Lemma SFsub_zero_class (x y : spec_float) :
  zero_class x -> zero_class y -> zero_class (SFsub prec emax x y).
Proof. destruct x as [[|]| | |], y as [[|]| | |]; simpl; tauto. Qed.

(** The body of [calculateFee], branch by branch. *)
Lemma fee_of_hours_eq (h : float) (c : Car) :
  fee_of_hours h c =
  (let g := h * hourlyRate c in
   if dynamicPricing c then
     if 5 <? h then (g - g * 0.30) + (g - g * 0.30) * 0.18
     else g + g * 0.18
   else g + 0)%float.
Proof.
  unfold fee_of_hours.
  destruct (dynamicPricing c); [destruct (5 <? h)%float|]; reflexivity.
Qed.

Lemma fee_of_hours_zero (h : float) (c : Car) :
  zero_class (Prim2SF (h * hourlyRate c)) ->
  (fee_of_hours h c =? 0)%float = true.
Proof.
  intros Hg. apply zero_class_eqb. rewrite fee_of_hours_eq. cbv zeta.
  set (g := (h * hourlyRate c)%float) in *.
  assert (Hd : zero_class (Prim2SF (g - g * 0.30))).
  { rewrite FloatAxioms.sub_spec, FloatAxioms.mul_spec.
    apply SFsub_zero_class; [exact Hg|].
    apply SFmul_zero_class_l; [exact Hg | exact I]. }
  destruct (dynamicPricing c); [destruct (5 <? h)%float|];
    rewrite FloatAxioms.add_spec; apply SFadd_zero_class; auto;
    try (rewrite FloatAxioms.mul_spec; apply SFmul_zero_class_l; auto; exact I).
  exact I.
Qed.





Lemma minutes_count_range (d : Z) :
  in_int64 d = true -> - 2 ^ 63 < chrono.minutes_count d < 2 ^ 63.
Proof.
  unfold in_int64, chrono.minutes_count. rewrite andb_true_iff, !Z.leb_le.
  intros [Hlo Hhi].
  pose proof (Z.quot_le_mono _ _ chrono.ticks_per_minute eq_refl Hlo) as H1.
  pose proof (Z.quot_le_mono _ _ chrono.ticks_per_minute eq_refl Hhi) as H2.
  change (INT64_MIN ÷ chrono.ticks_per_minute) with (-153722867) in H1.
  change (INT64_MAX ÷ chrono.ticks_per_minute) with 153722867 in H2.
  change (2 ^ 63) with 9223372036854775808. lia.
Qed.

Lemma elapsed_hours_defined (now t : Z) :
  in_int64 (now - t) = true ->
  elapsed_hours now t =
    Some (hours_of_minutes (Z.quot (now - t) chrono.ticks_per_minute)).
Proof.
  intros H. unfold elapsed_hours, elapsed_minutes, chrono.sub. now rewrite H.
Qed.

Lemma elapsed_hours_inv (now t : Z) (hours : float) :
  elapsed_hours now t = Some hours ->
  in_int64 (now - t) = true /\
  hours = hours_of_minutes (Z.quot (now - t) chrono.ticks_per_minute).
Proof.
  unfold elapsed_hours, elapsed_minutes, chrono.sub.
  destruct (in_int64 (now - t)); simpl; [|discriminate].
  intros [= <-]. auto.
Qed.







(** * The store in use: lookups, removals, files and the menu *)

(** ** More on the store *)

(** The record a call of [parkCar] appends when there is room: the answers
    as entered, the old counter value as id, and the time of the call as
    parking time unless a positive duration was entered. *)
Lemma parkCar_admits (now : Z) (inp : ParkInput) (lot lot' : ParkingLot) :
  parkCar now inp lot = Some lot' ->
  has_room lot = true ->
  exists t,
    cars lot' = cars lot ++ [car_of_input t (nextCarID lot) inp] /\
    (if (0 <? in_parkingHours inp)%float
     then backdated now (in_parkingHours inp) = Some t
     else t = now).
Proof.
  unfold parkCar, post_increment_nextCarID.
  destruct (nextCarID lot <? INT_MAX); [|discriminate].
  change (has_room (set_nextCarID lot (nextCarID lot + 1))) with (has_room lot).
  intros Hp Hroom. rewrite Hroom in Hp.
  destruct (0 <? in_parkingHours inp)%float.
  - destruct (backdated now (in_parkingHours inp)) as [t|]; [|discriminate].
    exists t. cbn [option_map] in Hp. injection Hp as <-. split; reflexivity.
  - exists now. injection Hp as <-. split; reflexivity.
Qed.

Lemma removal_split (now wanted : Z) (owner : string) (lot : ParkingLot)
    (r : Removal) :
  removeCarByIdAndOwner now wanted owner lot = Some r ->
  if removed r then
    exists l1 c l2 hours,
      cars lot = l1 ++ c :: l2 /\
      owner_matches wanted owner c = true /\
      (forall x, In x l1 -> owner_matches wanted owner x = false) /\
      elapsed_hours now (parkingTime c) = Some hours /\
      r = {| removed := true; bill := Some (bill_of_hours hours c);
             bill_saved := negb (silentMode lot);
             lot_after := set_cars lot (l1 ++ l2) |}
  else
    (forall x, In x (cars lot) -> owner_matches wanted owner x = false) /\
    r = {| removed := false; bill := None; bill_saved := false;
           lot_after := lot |}.
Proof.
  unfold removeCarByIdAndOwner.
  destruct (find_if _ (cars lot)) as [[i it]|] eqn:Hf.
  - destruct (elapsed_hours now (parkingTime it)) as [hours|] eqn:Hh;
      [|discriminate].
    intros [= <-]. cbn [removed].
    apply find_if_some in Hf as (l1 & l2 & Hcars & _ & Hit & Hl1 & Her).
    exists l1, it, l2, hours. rewrite Her. repeat split; auto.
  - intros [= <-]. cbn [removed]. split; [|reflexivity].
    now apply find_if_none.
Qed.

Lemma StronglySorted_lt_app_last (l : list Z) (a : Z) :
  StronglySorted Z.lt l -> Forall (fun x => x < a) l ->
  StronglySorted Z.lt (l ++ [a]).
Proof.
  induction 1 as [|x l Hs IH Hall]; intros Hlt; simpl.
  - repeat constructor.
  - inversion Hlt as [|? ? Hx Hl]; subst. constructor; [auto|].
    apply Forall_app. split; [exact Hall | constructor; [exact Hx | constructor]].
Qed.

Lemma StronglySorted_lt_remove (l1 l2 : list Z) (a : Z) :
  StronglySorted Z.lt (l1 ++ a :: l2) -> StronglySorted Z.lt (l1 ++ l2).
Proof.
  induction l1 as [|x l1 IH]; simpl; intros Hs.
  - now inversion Hs.
  - inversion Hs as [|? ? Hs' Hall]; subst. constructor; [auto|].
    apply Forall_app in Hall as [H1 H2]. apply Forall_app. split; [exact H1|].
    now inversion H2.
Qed.

(** One step that is not a test addition keeps the stored ids in order and
    below the counter; what it stores was stored before or is handed out
    by this step. *)
Lemma step_store_ids (op : Op) (lot lot' : ParkingLot) (adm : option Car) :
  is_TestAdd op = false ->
  step op lot = Some (lot', adm) ->
  store_ids_ok lot ->
  store_ids_ok lot' /\
  incl (List.map id (cars lot'))
       (List.map id (cars lot) ++
        match adm with Some c => [id c] | None => [] end).
Proof.
  intros Hop Hstep (Hstart & Hsorted & Hall). unfold store_ids_ok.
  pose proof (step_inv _ _ _ _ Hstep) as (Hmono & _ & Hadm).
  destruct op as [now inp|car|now wanted owner]; [| discriminate |].
  - destruct adm as [c|].
    + destruct Hadm as (Hid & Hn & Hcars & _).
      rewrite Hcars, map_app. cbn [List.map]. repeat split.
      * lia.
      * apply StronglySorted_lt_app_last; [exact Hsorted|].
        rewrite Forall_map. eapply Forall_impl; [|exact Hall].
        cbv beta. intros x Hx. lia.
      * apply Forall_app. split.
        -- eapply Forall_impl; [|exact Hall]. cbv beta. intros x Hx. lia.
        -- constructor; [lia | constructor].
      * apply incl_refl.
    + destruct Hadm as (_ & Hcars & Hn). rewrite Hcars. repeat split.
      * lia.
      * exact Hsorted.
      * eapply Forall_impl; [|exact Hall]. cbv beta. intros x Hx. lia.
      * rewrite app_nil_r. apply incl_refl.
  - destruct adm as [c|];
      [destruct Hadm as (_ & _ & _ & _ & n & i & Hbad); discriminate|].
    cbn [step] in Hstep.
    destruct (removeCarByIdAndOwner now wanted owner lot) as [r|] eqn:Hr;
      [|discriminate].
    cbn [option_map] in Hstep. injection Hstep as <-.
    rewrite app_nil_r. apply removal_split in Hr.
    destruct (removed r).
    + destruct Hr as (l1 & c & l2 & hours & Hcars & _ & _ & _ & ->).
      cbn [lot_after set_cars cars nextCarID]. rewrite Hcars in *.
      rewrite !map_app in *. cbn [List.map] in *. repeat split.
      * exact Hstart.
      * eapply StronglySorted_lt_remove; exact Hsorted.
      * apply Forall_app in Hall as [H1 H2]. apply Forall_app.
        split; [exact H1 | now inversion H2].
      * intros x Hx. apply in_app_or in Hx as [Hx|Hx];
          apply in_or_app; [left | right; right]; exact Hx.
    + destruct Hr as [_ ->]. cbn [lot_after]. repeat split; auto.
      apply incl_refl.
Qed.

(** The same along a run without test additions. *)
Lemma run_store_ids (ops : list Op) :
  forall (lot0 lot : ParkingLot) (ids : list Z),
    forallb (fun op => negb (is_TestAdd op)) ops = true ->
    run ops lot0 = Some (lot, ids) ->
    store_ids_ok lot0 ->
    store_ids_ok lot /\
    incl (List.map id (cars lot)) (List.map id (cars lot0) ++ ids).
Proof.
  induction ops as [|op ops IH]; cbn [run forallb]; intros lot0 lot ids Hops Hrun Hok.
  - injection Hrun as <- <-. split; [exact Hok|]. rewrite app_nil_r. apply incl_refl.
  - apply andb_true_iff in Hops as [Hop Hops]. apply negb_true_iff in Hop.
    destruct (step op lot0) as [[lot1 adm]|] eqn:Hstep; [|discriminate].
    destruct (run ops lot1) as [[lot2 ids']|] eqn:Hrest; [|discriminate].
    injection Hrun as <- <-.
    destruct (step_store_ids _ _ _ _ Hop Hstep Hok) as [Hok1 Hincl1].
    destruct (IH _ _ _ Hops Hrest Hok1) as [Hok2 Hincl2].
    split; [exact Hok2|].
    intros x Hx. apply Hincl2 in Hx. apply in_app_or in Hx as [Hx|Hx].
    + apply Hincl1 in Hx. apply in_app_or in Hx as [Hx|Hx];
        apply in_or_app; [now left | right].
      destruct adm as [c|]; [|contradiction]. destruct Hx as [<-|[]]. now left.
    + apply in_or_app. right. destruct adm; [right|]; exact Hx.
Qed.

Lemma store_ids_ok_new : store_ids_ok ParkingLot_new.
Proof.
  unfold store_ids_ok. cbn. repeat split; [lia | constructor | constructor].
Qed.

Lemma find_if_app {A : Type} (p : A -> bool) (l1 l2 : list A) :
  find_if p (l1 ++ l2) =
  match find_if p l1 with
  | Some r => Some r
  | None => option_map (fun '(i, y) => ((List.length l1 + i)%nat, y))
                       (find_if p l2)
  end.
Proof.
  induction l1 as [|a l1 IH]; simpl.
  - destruct (find_if p l2) as [[i y]|]; reflexivity.
  - destruct (p a); [reflexivity|]. rewrite IH.
    destruct (find_if p l1) as [[i y]|]; [reflexivity|].
    destruct (find_if p l2) as [[i y]|]; reflexivity.
Qed.

(** The record a scan returns does not change when an element that fails
    the test is taken out or put in. *)
Lemma find_if_skip {A : Type} (p : A -> bool) (l1 l2 : list A) (a : A) :
  p a = false ->
  option_map snd (find_if p (l1 ++ a :: l2)) =
  option_map snd (find_if p (l1 ++ l2)).
Proof.
  intros Ha. rewrite !find_if_app. cbn [find_if]. rewrite Ha.
  destruct (find_if p l1) as [[i y]|]; [reflexivity|].
  destruct (find_if p l2) as [[i y]|]; reflexivity.
Qed.

Lemma getCarByID_find (now wanted : Z) (lot : ParkingLot) :
  getCarByID now wanted lot =
  match option_map snd (find_if (fun car => id car =? wanted) (cars lot)) with
  | Some car => car
  | None => Car_default now
  end.
Proof.
  unfold getCarByID. destruct (find_if _ (cars lot)) as [[i y]|]; reflexivity.
Qed.

(** X1. In every run of [parkCar] and [removeCarByIdAndOwner] from the empty
    store (no [testAddCar]), the stored ids are strictly increasing with the
    position, hence pairwise distinct; each lies between 1001 and the
    counter, and each was handed out by an admission of the run. *)
Theorem stored_ids_distinct (ops : list Op) (lot : ParkingLot) (ids : list Z) :
  forallb (fun op => negb (is_TestAdd op)) ops = true ->
  run ops ParkingLot_new = Some (lot, ids) ->
  StronglySorted Z.lt (List.map id (cars lot)) /\
  NoDup (List.map id (cars lot)) /\
  Forall (fun c => 1001 <= id c < nextCarID lot) (cars lot) /\
  incl (List.map id (cars lot)) ids.
Proof.
  intros Hops Hrun.
  destruct (run_store_ids _ _ _ _ Hops Hrun store_ids_ok_new)
    as ((_ & Hsorted & Hall) & Hincl).
  repeat split; auto. now apply StronglySorted_lt_NoDup.
Qed.

Lemma stored_ids_distinct_witness :
  exists lot,
    run menu_run ParkingLot_new = Some (lot, [1001; 1002; 1003]) /\
    List.map id (cars lot) = [1002; 1003] /\
    NoDup (List.map id (cars lot)).
Proof.
  destruct (run menu_run ParkingLot_new) as [[lot ids]|] eqn:Hrun;
    [|vm_compute in Hrun; discriminate].
  pose proof (stored_ids_distinct menu_run lot ids eq_refl Hrun) as (_ & Hnd & _).
  exists lot. vm_compute in Hrun. injection Hrun as <- <-.
  split; [reflexivity|]. split; [reflexivity | exact Hnd].
Defined.

(** X2. After a [parkCar] that finds room in a store holding no record
    with the counter's value as id, [getCarByID] with that id returns the
    record just built from the answers: it is [cars.back()], carries the
    answers field by field, and is parked at the clock reading, or at the
    backdated time when hours already parked were entered. *)
Theorem lookup_after_parkCar (now now' : Z) (inp : ParkInput)
    (lot lot' : ParkingLot) :
  parkCar now inp lot = Some lot' ->
  (getCarCount lot < 100)%nat ->
  Forall (fun c => id c <> nextCarID lot) (cars lot) ->
  exists t,
    getCarByID now' (nextCarID lot) lot' = car_of_input t (nextCarID lot) inp /\
    List.last (cars lot') (Car_default now') = car_of_input t (nextCarID lot) inp /\
    (if (0 <? in_parkingHours inp)%float
     then backdated now (in_parkingHours inp) = Some t
     else t = now).
Proof.
  intros Hp Hroom Hfresh. apply has_room_true in Hroom.
  destruct (parkCar_admits _ _ _ _ Hp Hroom) as (t & Hcars & Ht).
  exists t. split; [|split; [|exact Ht]].
  - unfold getCarByID. rewrite Hcars.
    rewrite (find_if_first (fun car => id car =? nextCarID lot) (cars lot) []).
    + reflexivity.
    + apply Z.eqb_refl.
    + intros x Hx. apply Z.eqb_neq. rewrite Forall_forall in Hfresh. auto.
  - rewrite Hcars. apply last_last.
Qed.

Lemma lookup_after_parkCar_witness :
  exists lot',
    parkCar t0 sample_input (parked 2) = Some lot' /\
    ownerName (getCarByID t0 1003 lot') = "John Doe"%string.
Proof.
  destruct (parkCar t0 sample_input (parked 2)) as [lot'|] eqn:Hp;
    [|vm_compute in Hp; discriminate].
  exists lot'. split; [reflexivity|].
  assert (Hroom : (getCarCount (parked 2) < 100)%nat) by (vm_compute; lia).
  assert (Hfresh : Forall (fun c => id c <> nextCarID (parked 2)) (cars (parked 2))).
  { vm_compute. repeat constructor; discriminate. }
  destruct (lookup_after_parkCar t0 t0 _ _ _ Hp Hroom Hfresh) as (t & Hget & _).
  change (nextCarID (parked 2)) with 1003 in Hget. rewrite Hget. reflexivity.
Defined.

Lemma elapsed_hours_some (now t : Z) :
  in_int64 (now - t) = true -> exists hours, elapsed_hours now t = Some hours.
Proof. intros H. rewrite (elapsed_hours_defined _ _ H). eauto. Qed.

(** X3. Let [parkCar] find room in a store where no record carries both
    the counter's value as id and the owner name entered. Then
    [removeCarByIdAndOwner] with that id and that owner name, at a clock
    reading whose distance to the parking time of the new record fits the
    clock's tick count, succeeds, removes the record just admitted and
    leaves the records the store held before the admission; the counter
    keeps its advance. *)
Theorem remove_after_parkCar (now now' : Z) (inp : ParkInput)
    (lot lot' : ParkingLot) :
  parkCar now inp lot = Some lot' ->
  (getCarCount lot < 100)%nat ->
  (forall c, In c (cars lot) ->
             ~ (id c = nextCarID lot /\ ownerName c = in_ownerName inp)) ->
  in_int64 (now' - parkingTime (List.last (cars lot') (Car_default now'))) = true ->
  exists r,
    removeCarByIdAndOwner now' (nextCarID lot) (in_ownerName inp) lot' = Some r /\
    removed r = true /\
    bill_saved r = negb (silentMode lot) /\
    cars (lot_after r) = cars lot /\
    nextCarID (lot_after r) = nextCarID lot + 1.
Proof.
  intros Hp Hroom Hfresh Htime. apply has_room_true in Hroom.
  destruct (parkCar_admits _ _ _ _ Hp Hroom) as (t & Hcars & _).
  pose proof (parkCar_inv _ _ _ _ Hp) as (_ & Hn & Hmode & _).
  set (c := car_of_input t (nextCarID lot) inp) in *.
  assert (Hc : in_int64 (now' - parkingTime c) = true).
  { rewrite Hcars, last_last in Htime. exact Htime. }
  destruct (elapsed_hours_some _ _ Hc) as [hours Hh].
  unfold removeCarByIdAndOwner. rewrite Hcars.
  rewrite (find_if_first (owner_matches (nextCarID lot) (in_ownerName inp))
             (cars lot) [] c).
  - rewrite Hh. eexists. split; [reflexivity|].
    cbn [removed lot_after bill_saved].
    rewrite erase_middle, app_nil_r, Hmode. repeat split. exact Hn.
  - apply owner_matches_iff. split; reflexivity.
  - intros x Hx. apply owner_matches_false_iff. exact (Hfresh x Hx).
Qed.

Lemma remove_after_parkCar_witness :
  exists lot' r,
    parkCar t0 sample_input (parked 2) = Some lot' /\
    removeCarByIdAndOwner t0 1003 "John Doe" lot' = Some r /\
    removed r = true /\
    cars (lot_after r) = cars (parked 2).
Proof.
  destruct (parkCar t0 sample_input (parked 2)) as [lot'|] eqn:Hp;
    [|vm_compute in Hp; discriminate].
  assert (Hroom : (getCarCount (parked 2) < 100)%nat) by (vm_compute; lia).
  assert (Hfresh : forall c, In c (cars (parked 2)) ->
                     ~ (id c = nextCarID (parked 2) /\
                        ownerName c = in_ownerName sample_input)).
  { intros c Hin [Hid _]. vm_compute in Hin.
    destruct Hin as [<-|[<-|[]]]; discriminate Hid. }
  assert (Htime : in_int64 (t0 - parkingTime (List.last (cars lot') (Car_default t0)))
                  = true).
  { vm_compute in Hp. injection Hp as <-. reflexivity. }
  destruct (remove_after_parkCar t0 t0 _ _ _ Hp Hroom Hfresh Htime)
    as (r & Hr & Hrem & _ & Hcars & _).
  exists lot', r. repeat split; assumption.
Defined.

(** X4. [testAddCar] below capacity and [getCarByID]: the new record is
    found by its id when no stored record has that id; when one has, the
    lookup still returns the earlier record and the new one is shadowed;
    lookups of every other id are unchanged. *)
Theorem lookup_after_testAddCar (now : Z) (car : Car) (lot : ParkingLot) :
  (getCarCount lot < 100)%nat ->
  (Forall (fun c => id c <> id car) (cars lot) ->
   getCarByID now (id car) (testAddCar car lot) = car) /\
  (forall l1 c l2,
     cars lot = l1 ++ c :: l2 -> id c = id car ->
     Forall (fun x => id x <> id car) l1 ->
     getCarByID now (id car) (testAddCar car lot) = c) /\
  (forall wanted,
     wanted <> id car ->
     getCarByID now wanted (testAddCar car lot) = getCarByID now wanted lot).
Proof.
  intros Hroom. destruct (testAddCar_inv car lot) as (_ & _ & Hc).
  apply has_room_true in Hroom. rewrite Hroom in Hc.
  split; [|split].
  - intros Hfresh. unfold getCarByID. rewrite Hc.
    rewrite (find_if_first (fun x => id x =? id car) (cars lot) [] car);
      [reflexivity | apply Z.eqb_refl |].
    intros x Hx. apply Z.eqb_neq. rewrite Forall_forall in Hfresh. auto.
  - intros l1 c l2 Hcars Hid Hl1. unfold getCarByID. rewrite Hc, Hcars.
    rewrite <- app_assoc. cbn [app].
    rewrite (find_if_first (fun x => id x =? id car) l1 (l2 ++ [car]) c);
      [reflexivity | now apply Z.eqb_eq |].
    intros x Hx. apply Z.eqb_neq. rewrite Forall_forall in Hl1. auto.
  - intros wanted Hne. rewrite !getCarByID_find, Hc.
    rewrite (find_if_skip (fun x => id x =? wanted) (cars lot) [] car).
    + now rewrite app_nil_r.
    + apply Z.eqb_neq. congruence.
Qed.

Lemma lookup_after_testAddCar_witness :
  let first := createCar t0 2013 "First" false 50 in
  let second := createCar t0 2013 "Second" false 50 in
  let lot := testAddCar second (testAddCar first ParkingLot_new) in
  getCarByID t0 2013 (testAddCar first ParkingLot_new) = first /\
  ownerName (getCarByID t0 2013 lot) = "First"%string.
Proof.
  cbv zeta. split.
  - apply (lookup_after_testAddCar t0 (createCar t0 2013 "First" false 50)
             ParkingLot_new); [vm_compute; lia | constructor].
  - assert (H : (getCarCount (testAddCar (createCar t0 2013 "First" false 50)
                                ParkingLot_new) < 100)%nat) by (vm_compute; lia).
    destruct (lookup_after_testAddCar t0 (createCar t0 2013 "Second" false 50) _ H)
      as (_ & Hold & _).
    exact (f_equal ownerName
             (Hold [] (createCar t0 2013 "First" false 50) []
                   eq_refl eq_refl (Forall_nil _))).
Defined.

(** X5. [removeCarByIdAndOwner] removes exactly one record when it
    succeeds and none when it fails; after a successful removal from a store
    within capacity, [testAddCar] is sure to append its record. *)
Theorem removal_frees_one_slot (now wanted : Z) (owner : string)
    (lot : ParkingLot) (r : Removal) :
  removeCarByIdAndOwner now wanted owner lot = Some r ->
  (getCarCount (lot_after r) + (if removed r then 1 else 0))%nat = getCarCount lot /\
  (removed r = true -> (getCarCount lot <= 100)%nat ->
   forall car, cars (testAddCar car (lot_after r)) = cars (lot_after r) ++ [car]).
Proof.
  intros Hr. apply removal_split in Hr. unfold getCarCount.
  destruct (removed r).
  - destruct Hr as (l1 & c & l2 & hours & Hcars & _ & _ & _ & ->).
    cbn [lot_after set_cars cars]. rewrite Hcars, !length_app. cbn [List.length].
    split; [lia|]. intros _ Hcap car.
    destruct (testAddCar_inv car (set_cars lot (l1 ++ l2))) as (_ & _ & Hc).
    replace (has_room (set_cars lot (l1 ++ l2))) with true in Hc; [exact Hc|].
    symmetry. apply has_room_true. unfold getCarCount. cbn [set_cars cars].
    rewrite length_app. lia.
  - destruct Hr as [_ ->]. cbn [lot_after]. split; [lia | discriminate].
Qed.

Lemma removal_frees_one_slot_witness :
  exists r,
    removeCarByIdAndOwner t0 1001 "John Doe" full_lot = Some r /\
    getCarCount (lot_after r) = 99%nat /\
    getCarCount (testAddCar (Car_default t0) (lot_after r)) = 100%nat.
Proof.
  destruct (removeCarByIdAndOwner t0 1001 "John Doe" full_lot) as [r|] eqn:Hr;
    [|vm_compute in Hr; discriminate].
  destruct (removal_frees_one_slot _ _ _ _ _ Hr) as [Hcount Hroom].
  assert (Hrem : removed r = true)
    by (vm_compute in Hr; injection Hr as <-; reflexivity).
  assert (Hfull : getCarCount full_lot = 100%nat) by (vm_compute; reflexivity).
  rewrite Hrem, Hfull in Hcount.
  exists r. split; [reflexivity|]. split; [lia|].
  unfold getCarCount at 1. rewrite (Hroom Hrem ltac:(lia)), length_app.
  fold (getCarCount (lot_after r)). cbn [List.length]. lia.
Defined.

(** X6. [removeCarByIdAndOwner] changes the result of [getCarByID] for no
    id other than the one it was called with. *)
Theorem removal_keeps_other_lookups (now wanted : Z) (owner : string)
    (lot : ParkingLot) (r : Removal) :
  removeCarByIdAndOwner now wanted owner lot = Some r ->
  forall now' other,
    other <> wanted ->
    getCarByID now' other (lot_after r) = getCarByID now' other lot.
Proof.
  intros Hr now' other Hne. apply removal_split in Hr.
  destruct (removed r).
  - destruct Hr as (l1 & c & l2 & hours & Hcars & Hc & _ & _ & ->).
    rewrite !getCarByID_find. cbn [lot_after set_cars cars]. rewrite Hcars.
    rewrite (find_if_skip (fun x => id x =? other) l1 l2 c); [reflexivity|].
    apply owner_matches_iff in Hc as [Hid _]. apply Z.eqb_neq. congruence.
  - destruct Hr as [_ ->]. reflexivity.
Qed.

Lemma removal_keeps_other_lookups_witness :
  exists r,
    removeCarByIdAndOwner t0 1001 "John Doe" (parked 2) = Some r /\
    getCarByID t0 1002 (lot_after r) = getCarByID t0 1002 (parked 2).
Proof.
  destruct (removeCarByIdAndOwner t0 1001 "John Doe" (parked 2)) as [r|] eqn:Hr;
    [|vm_compute in Hr; discriminate].
  exists r. split; [reflexivity|].
  apply (removal_keeps_other_lookups _ _ _ _ _ Hr). discriminate.
Defined.

(** X7. In a store without duplicate ids, a second
    [removeCarByIdAndOwner] with the id and owner of a record just removed
    fails, produces no bill and leaves the store as it is, and [getCarByID]
    with that id returns the default record. *)
Theorem second_removal_fails (now now' wanted : Z) (owner : string)
    (lot : ParkingLot) (r : Removal) :
  removeCarByIdAndOwner now wanted owner lot = Some r ->
  removed r = true ->
  NoDup (List.map id (cars lot)) ->
  removeCarByIdAndOwner now' wanted owner (lot_after r) =
    Some {| removed := false; bill := None; bill_saved := false;
            lot_after := lot_after r |} /\
  getCarByID now' wanted (lot_after r) = Car_default now'.
Proof.
  intros Hr Hrem Hnd. apply removal_split in Hr. rewrite Hrem in Hr.
  destruct Hr as (l1 & c & l2 & hours & Hcars & Hc & _ & _ & ->).
  cbn [lot_after]. apply owner_matches_iff in Hc as [Hid _].
  assert (Hnone : forall x, In x (l1 ++ l2) -> id x <> wanted).
  { rewrite Hcars, map_app in Hnd. cbn [List.map] in Hnd.
    apply NoDup_remove_2 in Hnd. intros x Hx Hxid. apply Hnd.
    rewrite <- map_app, Hid, <- Hxid. now apply in_map. }
  split.
  - unfold removeCarByIdAndOwner. cbn [set_cars cars].
    replace (find_if (owner_matches wanted owner) (l1 ++ l2)) with
      (@None (nat * Car)); [reflexivity|].
    symmetry. apply find_if_none. intros x Hx.
    apply owner_matches_false_iff. intros [Hxid _]. exact (Hnone x Hx Hxid).
  - unfold getCarByID. cbn [set_cars cars].
    replace (find_if (fun car => id car =? wanted) (l1 ++ l2)) with
      (@None (nat * Car)); [reflexivity|].
    symmetry. apply find_if_none. intros x Hx. apply Z.eqb_neq. auto.
Qed.

Lemma second_removal_fails_witness :
  exists r,
    removeCarByIdAndOwner t0 1001 "John Doe" (parked 2) = Some r /\
    option_map removed
      (removeCarByIdAndOwner t0 1001 "John Doe" (lot_after r)) = Some false.
Proof.
  destruct (removeCarByIdAndOwner t0 1001 "John Doe" (parked 2)) as [r|] eqn:Hr;
    [|vm_compute in Hr; discriminate].
  assert (Hrem : removed r = true)
    by (vm_compute in Hr; injection Hr as <-; reflexivity).
  assert (Hnd : NoDup (List.map id (cars (parked 2)))).
  { vm_compute. repeat constructor; simpl; intuition discriminate. }
  exists r. split; [reflexivity|].
  destruct (second_removal_fails t0 t0 _ _ _ _ Hr Hrem Hnd) as [H2 _].
  rewrite H2. reflexivity.
Defined.

(** X8. [setSilentMode] changes only what is printed and saved: records
    and counter are kept, and [parkCar], [testAddCar], [getCarByID] and
    [removeCarByIdAndOwner] give the same store, the same answer and the same
    bill amounts in either mode; only whether the bill is printed and saved
    follows the mode. *)
Theorem silent_mode_changes_no_result (mode : bool) (lot : ParkingLot) :
  cars (setSilentMode mode lot) = cars lot /\
  nextCarID (setSilentMode mode lot) = nextCarID lot /\
  (forall now inp,
     parkCar now inp (setSilentMode mode lot) =
     option_map (setSilentMode mode) (parkCar now inp lot)) /\
  (forall car,
     testAddCar car (setSilentMode mode lot) =
     setSilentMode mode (testAddCar car lot)) /\
  (forall now wanted,
     getCarByID now wanted (setSilentMode mode lot) = getCarByID now wanted lot) /\
  (forall now wanted owner,
     removeCarByIdAndOwner now wanted owner (setSilentMode mode lot) =
     option_map
       (fun r => {| removed := removed r; bill := bill r;
                    bill_saved := removed r && negb mode;
                    lot_after := setSilentMode mode (lot_after r) |})
       (removeCarByIdAndOwner now wanted owner lot)).
Proof.
  repeat split.
  - intros now inp. unfold parkCar, post_increment_nextCarID.
    cbn [setSilentMode nextCarID].
    destruct (nextCarID lot <? INT_MAX); [|reflexivity].
    change (has_room (set_nextCarID (setSilentMode mode lot) (nextCarID lot + 1)))
      with (has_room lot).
    change (has_room (set_nextCarID lot (nextCarID lot + 1))) with (has_room lot).
    destruct (0 <? in_parkingHours inp)%float;
      [destruct (backdated now (in_parkingHours inp)); cbn [option_map];
       [|reflexivity]|];
      destruct (has_room lot); reflexivity.
  - intros car. unfold testAddCar.
    change (has_room (setSilentMode mode lot)) with (has_room lot).
    destruct (has_room lot); reflexivity.
  - intros now wanted owner. unfold removeCarByIdAndOwner.
    cbn [setSilentMode cars].
    destruct (find_if _ (cars lot)) as [[i it]|]; [|reflexivity].
    destruct (elapsed_hours now (parkingTime it)); reflexivity.
Qed.

(** X9. For an id other than 0, the record [getCarByID] returns has id 0
    exactly when no stored record has the id asked for, and has the id asked
    for exactly when some stored record has it. *)
Theorem sentinel_id_means_absent (now wanted : Z) (lot : ParkingLot) :
  wanted <> 0 ->
  (id (getCarByID now wanted lot) = 0 <->
   forall c, In c (cars lot) -> id c <> wanted) /\
  (id (getCarByID now wanted lot) = wanted <->
   exists c, In c (cars lot) /\ id c = wanted).
Proof.
  intros Hnz. unfold getCarByID.
  destruct (find_if _ (cars lot)) as [[i y]|] eqn:Hf.
  - apply find_if_some in Hf as (l1 & l2 & Hcars & _ & Hy & _).
    apply Z.eqb_eq in Hy.
    assert (Hin : In y (cars lot)).
    { rewrite Hcars. apply in_or_app. right. now left. }
    split; split.
    + intros H0. congruence.
    + intros Hnone. exfalso. exact (Hnone y Hin Hy).
    + intros _. eauto.
    + intros _. exact Hy.
  - pose proof (proj1 (find_if_none _ _) Hf) as Hnone.
    split; split.
    + intros _ c Hc. apply Z.eqb_neq. auto.
    + intros _. reflexivity.
    + cbn [Car_default id]. congruence.
    + intros (c & Hc & Hid). apply Hnone in Hc. apply Z.eqb_neq in Hc.
      contradiction.
Qed.

Lemma sentinel_id_means_absent_witness :
  id (getCarByID t0 1002 (parked 2)) = 1002 /\
  id (getCarByID t0 1003 (parked 2)) = 0.
Proof.
  destruct (sentinel_id_means_absent t0 1002 (parked 2) ltac:(discriminate))
    as [_ [_ Hfound]].
  destruct (sentinel_id_means_absent t0 1003 (parked 2) ltac:(discriminate))
    as [[_ Habsent] _].
  split.
  - apply Hfound. exists (getCarByID t0 1002 (parked 2)). vm_compute. auto.
  - apply Habsent. intros c Hc. vm_compute in Hc.
    destruct Hc as [<-|[<-|[]]]; discriminate.
Defined.

(** ** Backdating and elapsed hours *)

Lemma SFmul_signed_const (x : spec_float) (mc : positive) (ec : Z) :
  signed false x -> signed false (SFmul prec emax x (S754_finite false mc ec)).
Proof.
  destruct x as [s|s| |s m e]; intros Hx; try contradiction;
    simpl in Hx; subst s; try reflexivity.
  apply (SFmul_finite_signed false false).
Qed.

Lemma ltb_zero_signed (x : float) :
  (0 <? x)%float = true -> signed false (Prim2SF x).
Proof.
  rewrite FloatAxioms.ltb_spec. change (Prim2SF 0) with (S754_zero false).
  destruct (Prim2SF x) as [s|[|]| |[|] m e]; simpl; auto; discriminate.
Qed.

(** A double that is not negative truncates to an integer that is not
    negative, within the 64-bit range when the conversion is defined. *)
Lemma to_long_signed (x : float) (z : Z) :
  signed false (Prim2SF x) -> Double.to_long x = Some z ->
  0 <= z /\ in_int64 z = true.
Proof.
  unfold Double.to_long.
  destruct (Prim2SF x) as [s|s| |s m e]; simpl signed; intros Hs Hz;
    try discriminate.
  - injection Hz as <-. split; [lia | reflexivity].
  - subst s. cbv zeta in Hz.
    set (mag := match e with
                | Zneg p => Z.shiftr (Zpos m) (Zpos p)
                | _ => Z.shiftl (Zpos m) e
                end) in *.
    assert (Hmag : 0 <= mag).
    { unfold mag. destruct e; [apply Z.shiftl_nonneg | apply Z.shiftl_nonneg
                               | apply Z.shiftr_nonneg]; lia. }
    destruct (in_int64 mag) eqn:Hin; [|discriminate].
    injection Hz as <-. auto.
Qed.

Lemma backdated_inv (now t : Z) (h : float) :
  (0 <? h)%float = true -> backdated now h = Some t ->
  t <= now /\ in_int64 (now - t) = true.
Proof.
  intros Hpos. unfold backdated, chrono.ticks_of_seconds, chrono.sub.
  destruct (Double.to_long _) as [d|] eqn:Hd; [|discriminate].
  destruct (in_int64 (now - d)); [|discriminate]. intros [= <-].
  assert (Hs : signed false (Prim2SF (h * 3600 * 1000000000)%float)).
  { rewrite !FloatAxioms.mul_spec.
    assert (H1 : exists m e, Prim2SF 3600 = S754_finite false m e)
      by (vm_compute; eauto).
    assert (H2 : exists m e, Prim2SF 1000000000 = S754_finite false m e)
      by (vm_compute; eauto).
    destruct H1 as (m1 & e1 & ->). destruct H2 as (m2 & e2 & ->).
    apply SFmul_signed_const, SFmul_signed_const. now apply ltb_zero_signed. }
  destruct (to_long_signed _ _ Hs Hd) as [Hd0 Hdr].
  replace (now - (now - d)) with d by lia. split; [lia | exact Hdr].
Qed.

(** X10. The record [parkCar] admits is never parked after the clock
    reading of the call: its parking time is the clock reading itself when
    the hours already parked that were entered are not above 0, and is not
    later than the clock reading otherwise; the elapsed time at that clock
    reading fits the clock's tick count. *)
Theorem admitted_never_parked_in_future (now : Z) (inp : ParkInput)
    (lot lot' : ParkingLot) :
  parkCar now inp lot = Some lot' ->
  (getCarCount lot < 100)%nat ->
  exists c,
    cars lot' = cars lot ++ [c] /\
    parkingTime c <= now /\
    in_int64 (now - parkingTime c) = true /\
    ((0 <? in_parkingHours inp)%float = false -> parkingTime c = now).
Proof.
  intros Hp Hroom. apply has_room_true in Hroom.
  destruct (parkCar_admits _ _ _ _ Hp Hroom) as (t & Hcars & Ht).
  exists (car_of_input t (nextCarID lot) inp). split; [exact Hcars|].
  cbn [car_of_input set_parkingTime parkingTime].
  destruct (0 <? in_parkingHours inp)%float eqn:Hpos.
  - destruct (backdated_inv _ _ _ Hpos Ht) as [Hle Hin].
    repeat split; auto. discriminate.
  - subst t. rewrite Z.sub_diag. repeat split; auto. lia.
Qed.

Lemma admitted_never_parked_in_future_witness :
  exists lot' c,
    parkCar t0 sample_input ParkingLot_new = Some lot' /\
    cars lot' = [c] /\ parkingTime c <= t0.
Proof.
  destruct (parkCar t0 sample_input ParkingLot_new) as [lot'|] eqn:Hp;
    [|vm_compute in Hp; discriminate].
  destruct (admitted_never_parked_in_future _ _ _ _ Hp ltac:(vm_compute; lia))
    as (c & Hcars & Hle & _).
  exists lot', c. repeat split; assumption.
Defined.

(** X11. The hours [calculateFee] and [removeCarByIdAndOwner] charge for
    are a finite double that is at least 0: the whole elapsed minutes,
    clamped at 0, divided by 60.0; below one full minute, and for a parking
    time later than the clock, they are 0. *)
Theorem elapsed_hours_never_negative (now t : Z) (hours : float) :
  elapsed_hours now t = Some hours ->
  (0 <=? hours)%float = true /\
  Double.is_finite hours = true /\
  hours = (Double.of_long (whole_minutes now t) / 60)%float /\
  (now - t < chrono.ticks_per_minute -> hours = 0%float).
Proof.
  intros Hh. apply elapsed_hours_inv in Hh as [Hrange ->].
  set (m := Z.quot (now - t) chrono.ticks_per_minute).
  destruct (hours_of_minutes_spec m (minutes_count_range _ Hrange))
    as [Heq Hclass].
  split; [|split; [|split]].
  - apply ge0_leb.
    destruct (Prim2SF (hours_of_minutes m)); try contradiction; simpl; auto.
  - unfold Double.is_finite.
    destruct (Prim2SF (hours_of_minutes m)); try contradiction; reflexivity.
  - exact Heq.
  - intros Hshort. rewrite Heq.
    assert (Hm : Z.max 0 m = 0).
    { assert (m <= 0); [|lia]. unfold m.
      destruct (Z_lt_le_dec (now - t) 0) as [Hneg|Hpos].
      - exact (Z.quot_le_mono _ 0 chrono.ticks_per_minute eq_refl
                 (Z.lt_le_incl _ _ Hneg)).
      - rewrite Z.quot_small; lia. }
    rewrite Hm. reflexivity.
Qed.

Lemma elapsed_hours_never_negative_witness :
  elapsed_hours t0 (t0 + 10 * 60 * chrono.ticks_per_minute) = Some 0%float /\
  (0 <=? 0)%float = true.
Proof.
  assert (H : elapsed_hours t0 (t0 + 10 * 60 * chrono.ticks_per_minute)
              = Some 0%float) by (vm_compute; reflexivity).
  split; [exact H|].
  exact (proj1 (elapsed_hours_never_negative _ _ _ H)).
Defined.

(** X12. The bill of a successful [removeCarByIdAndOwner] describes a
    record of the store: it carries the id and the owner name asked for, the
    record's licence plate and rate, the elapsed hours of that record and
    their product with the rate as gross amount; a discount line is printed
    only under dynamic pricing above 5 hours and is 0.30 times the gross
    amount; without dynamic pricing, tax and discount are 0. *)
Theorem bill_describes_removed_record (now wanted : Z) (owner : string)
    (lot : ParkingLot) (r : Removal) (b : Bill) :
  removeCarByIdAndOwner now wanted owner lot = Some r ->
  bill r = Some b ->
  exists c,
    In c (cars lot) /\
    id c = wanted /\ bill_id b = wanted /\ bill_ownerName b = owner /\
    bill_licensePlate b = licensePlate c /\ bill_rate b = hourlyRate c /\
    elapsed_hours now (parkingTime c) = Some (bill_hours b) /\
    bill_gross b = (bill_hours b * bill_rate b)%float /\
    (bill_discount_printed b = true ->
     dynamicPricing c = true /\ (5 <? bill_hours b)%float = true /\
     bill_discount b = (bill_gross b * 0.30)%float) /\
    (dynamicPricing c = false ->
     bill_gst b = 0%float /\ bill_discount b = 0%float /\
     bill_discount_printed b = false).
Proof.
  intros Hr Hb. apply removal_split in Hr.
  destruct (removed r).
  2:{ destruct Hr as [_ ->]. discriminate. }
  destruct Hr as (l1 & c & l2 & hours & Hcars & Hc & _ & Hh & ->).
  cbn [bill] in Hb. injection Hb as <-.
  apply owner_matches_iff in Hc as [Hid Hown].
  exists c. split; [rewrite Hcars; apply in_or_app; right; now left|].
  unfold bill_of_hours.
  destruct (dynamicPricing c); [destruct (5 <? hours)%float eqn:Hlong|];
    cbn; repeat split; auto; try discriminate.
Qed.

Lemma bill_describes_removed_record_witness :
  exists r b,
    removeCarByIdAndOwner t0 1001 "John Doe" (parked 2) = Some r /\
    bill r = Some b /\ bill_id b = 1001 /\ bill_discount_printed b = true.
Proof.
  destruct (removeCarByIdAndOwner t0 1001 "John Doe" (parked 2)) as [r|] eqn:Hr;
    [|vm_compute in Hr; discriminate].
  destruct (bill r) as [b|] eqn:Hb.
  2:{ vm_compute in Hr. injection Hr as <-. discriminate. }
  destruct (bill_describes_removed_record _ _ _ _ _ _ Hr Hb)
    as (c & _ & _ & Hid & _).
  exists r, b. repeat split; auto.
  vm_compute in Hr. injection Hr as <-. injection Hb as <-. reflexivity.
Defined.

(** ** Files and the menu loop *)

Lemma pop_back_app_char (s : string) (c : ascii) :
  pop_back (s ++ String c "") = s.
Proof.
  induction s as [|a s IH]; [reflexivity|].
  cbn [append pop_back]. rewrite IH.
  destruct s; reflexivity.
Qed.

Lemma save_all_some (saves : list (string * Car)) :
  forall lines,
    save_all saves (Some lines) =
    Some (lines ++ List.map (fun s => CsvData (csv_row (entry_time (fst s)) (snd s)))
                            saves).
Proof.
  induction saves as [|[ct car] saves IH]; intros lines; cbn [save_all List.map].
  - now rewrite app_nil_r.
  - rewrite IH. unfold saveCarToCSV. cbn [fst snd].
    now rewrite <- app_assoc.
Qed.

(** X13. [saveCarToCSV] called for several records in a row appends one
    data line per record, in order, to a file that exists; starting without
    a file it writes the header line once, as first line. The last line is
    the row of the record saved, its entry time the text of [std::ctime]
    without the final character. *)
Theorem csv_header_written_once (saves : list (string * Car)) :
  let data := List.map (fun s => CsvData (csv_row (entry_time (fst s)) (snd s)))
                       saves in
  (forall lines, save_all saves (Some lines) = Some (lines ++ data)) /\
  (saves <> [] -> save_all saves None = Some (CsvHeader :: data)) /\
  (forall text c car file,
     List.last (saveCarToCSV (text ++ String c "") car file) CsvHeader
     = CsvData (csv_row text car)).
Proof.
  cbv zeta. split; [|split].
  - apply save_all_some.
  - destruct saves as [|[ct car] saves]; [congruence|]. intros _.
    cbn [save_all]. rewrite save_all_some. reflexivity.
  - intros text c car file. unfold saveCarToCSV. rewrite last_last.
    unfold entry_time.
    replace ((text ++ String c "") =? "")%string with false.
    + now rewrite pop_back_app_char.
    + symmetry. apply String.eqb_neq. destruct text; discriminate.
Qed.

(** *** The loop of [main] *)

Lemma session_ops_no_TestAdd (inputs : list MenuInput) :
  forallb (fun op => negb (is_TestAdd op)) (session_ops inputs) = true.
Proof.
  induction inputs as [|[|choice a] inputs IH]; cbn [session_ops]; auto.
  destruct (choice =? 1); [exact IH|].
  destruct (choice =? 2); [exact IH|].
  destruct (choice =? 3); [exact IH|].
  destruct (choice =? 4); [reflexivity | exact IH].
Qed.

Lemma parkCar_io_lot (now : Z) (ct : string) (inp : ParkInput) (w : World) :
  option_map w_lot (parkCar_io now ct inp w) = parkCar now inp (w_lot w).
Proof.
  unfold parkCar_io. destruct (parkCar now inp (w_lot w)); [|reflexivity].
  destruct (has_room (w_lot w)); reflexivity.
Qed.

Lemma removeCar_lot (now carID : Z) (owner : string) (w : World) :
  option_map w_lot (removeCar now carID owner w) =
  option_map lot_after (removeCarByIdAndOwner now carID owner (w_lot w)).
Proof.
  unfold removeCar, removeCarByIdAndOwner_io.
  destruct (removeCarByIdAndOwner now carID owner (w_lot w)) as [r|];
    [|reflexivity].
  destruct (bill r); destruct (removed r); reflexivity.
Qed.

Lemma run_cons_lot (op : Op) (ops : list Op) (lot : ParkingLot) :
  option_map fst (run (op :: ops) lot) =
  match option_map fst (step op lot) with
  | Some lot1 => option_map fst (run ops lot1)
  | None => None
  end.
Proof.
  cbn [run]. destruct (step op lot) as [[lot1 adm]|]; [|reflexivity].
  cbn [option_map fst]. destruct (run ops lot1) as [[lot2 ids]|]; reflexivity.
Qed.

Lemma step_park_lot (now : Z) (inp : ParkInput) (lot : ParkingLot) :
  option_map fst (step (OpPark now inp) lot) = parkCar now inp lot.
Proof. cbn [step]. destruct (parkCar now inp lot); reflexivity. Qed.

Lemma step_remove_lot (now wanted : Z) (owner : string) (lot : ParkingLot) :
  option_map fst (step (OpRemove now wanted owner) lot) =
  option_map lot_after (removeCarByIdAndOwner now wanted owner lot).
Proof.
  cbn [step]. destruct (removeCarByIdAndOwner now wanted owner lot); reflexivity.
Qed.

(** The store a session ends with is the store of the run of its
    operations. *)
Lemma main_loop_lot (inputs : list MenuInput) :
  forall w,
    option_map (fun r => w_lot (snd r)) (main_loop inputs w) =
    option_map fst (run (session_ops inputs) (w_lot w)).
Proof.
  induction inputs as [|[|choice a] inputs IH]; intros w;
    cbn [main_loop session_ops].
  - reflexivity.
  - rewrite IH. reflexivity.
  - destruct (choice =? 1).
    { rewrite run_cons_lot, step_park_lot, <- (parkCar_io_lot _ (a_ctime a)).
      destruct (parkCar_io _ _ _ w) as [w'|]; cbn [option_map]; auto. }
    destruct (choice =? 2).
    { rewrite run_cons_lot, step_remove_lot, <- removeCar_lot.
      destruct (removeCar _ _ _ w) as [w'|]; cbn [option_map]; auto. }
    destruct (choice =? 3); [rewrite IH; reflexivity|].
    destruct (choice =? 4); [reflexivity|].
    rewrite IH. reflexivity.
Qed.

Lemma step_silentMode (op : Op) (lot lot' : ParkingLot) (adm : option Car) :
  step op lot = Some (lot', adm) -> silentMode lot' = silentMode lot.
Proof.
  destruct op as [now inp|car|now wanted owner]; cbn [step].
  - destruct (parkCar now inp lot) as [lot1|] eqn:Hp; [|discriminate].
    intros [= <- _]. now apply parkCar_inv in Hp.
  - intros [= <- _]. apply testAddCar_inv.
  - destruct (removeCarByIdAndOwner now wanted owner lot) as [r|] eqn:Hr;
      [|discriminate].
    intros [= <- _]. now apply removeCarByIdAndOwner_inv in Hr.
Qed.

Lemma run_silentMode (ops : list Op) :
  forall lot0 lot ids,
    run ops lot0 = Some (lot, ids) -> silentMode lot = silentMode lot0.
Proof.
  induction ops as [|op ops IH]; cbn [run]; intros lot0 lot ids Hrun.
  - now injection Hrun as <- _.
  - destruct (step op lot0) as [[lot1 adm]|] eqn:Hstep; [|discriminate].
    destruct (run ops lot1) as [[lot2 ids']|] eqn:Hrest; [|discriminate].
    injection Hrun as <- _.
    rewrite (IH _ _ _ Hrest). exact (step_silentMode _ _ _ _ Hstep).
Qed.

Lemma main_loop_run (inputs : list MenuInput) (w w' : World) (finished : bool) :
  main_loop inputs w = Some (finished, w') ->
  exists ids, run (session_ops inputs) (w_lot w) = Some (w_lot w', ids).
Proof.
  intros Hmain. pose proof (main_loop_lot inputs w) as H.
  rewrite Hmain in H. cbn [option_map snd] in H.
  destruct (run (session_ops inputs) (w_lot w)) as [[lot ids]|];
    [|discriminate].
  injection H as ->. eauto.
Qed.

(** X14. The store the loop of [main] ends with is the store the
    corresponding run of [parkCar] and [removeCarByIdAndOwner] ends with:
    listings, unreadable entries and wrong choices change no record, and the
    loop is undefined exactly when the run is. Entries typed after choice 4
    are never read. *)
Theorem session_is_a_run (inputs : list MenuInput) (w : World) :
  option_map (fun r => w_lot (snd r)) (main_loop inputs w) =
  option_map fst (run (session_ops inputs) (w_lot w)) /\
  (forall a rest,
     main_loop (inputs ++ Choice 4 a :: rest) w =
     main_loop (inputs ++ [Choice 4 a]) w).
Proof.
  split; [apply main_loop_lot|].
  intros a rest. revert w.
  induction inputs as [|[|choice b] inputs IH]; intros w;
    cbn [app main_loop].
  - reflexivity.
  - apply IH.
  - destruct (choice =? 1).
    { destruct (parkCar_io _ _ _ w); auto. }
    destruct (choice =? 2).
    { destruct (removeCar _ _ _ w); auto. }
    destruct (choice =? 3); [apply IH|].
    destruct (choice =? 4); [reflexivity | apply IH].
Qed.

(** X15. Whatever is typed at the menu of [main], the store holds at most
    100 records, their ids are pairwise distinct, increasing with the
    position, between 1001 and the counter, and the store is never silent. *)
Theorem session_keeps_store_sound (inputs : list MenuInput)
    (csv : option (list CsvLine)) (bills : list Bill)
    (finished : bool) (w : World) :
  main_loop inputs (main_start csv bills) = Some (finished, w) ->
  (getCarCount (w_lot w) <= 100)%nat /\
  NoDup (List.map id (cars (w_lot w))) /\
  StronglySorted Z.lt (List.map id (cars (w_lot w))) /\
  Forall (fun c => 1001 <= id c < nextCarID (w_lot w)) (cars (w_lot w)) /\
  silentMode (w_lot w) = false.
Proof.
  intros Hmain. apply main_loop_run in Hmain as [ids Hrun].
  cbn [main_start w_lot] in Hrun.
  pose proof (run_inv _ _ _ _ Hrun) as (_ & _ & _ & Hcap).
  destruct (run_store_ids _ _ _ _ (session_ops_no_TestAdd inputs) Hrun
              store_ids_ok_new) as ((_ & Hsorted & Hall) & _).
  split; [apply Hcap; unfold getCarCount; cbn; lia|].
  split; [now apply StronglySorted_lt_NoDup|].
  split; [exact Hsorted|]. split; [exact Hall|].
  exact (run_silentMode _ _ _ _ Hrun).
Qed.

(** One admission at the menu of a store that is not silent: the store
    moves as in a run, no bill is written, and a data line for the record
    is saved exactly when the record is admitted. *)
Lemma parkCar_io_step (now : Z) (ct : string) (inp : ParkInput) (w w' : World) :
  silentMode (w_lot w) = false ->
  parkCar_io now ct inp w = Some w' ->
  exists adm,
    step (OpPark now inp) (w_lot w) = Some (w_lot w', adm) /\
    w_bills w' = w_bills w /\
    match adm with
    | Some c => w_csv w' = Some (saveCarToCSV ct c (w_csv w)) /\
                w_console w' = w_console w ++ [MsgParked]
    | None => w_csv w' = w_csv w /\ w_console w' = w_console w
    end.
Proof.
  intros Hloud Hio. unfold parkCar_io in Hio. cbn [step].
  destruct (parkCar now inp (w_lot w)) as [lot'|] eqn:Hp; [|discriminate].
  pose proof (parkCar_inv _ _ _ _ Hp) as (_ & _ & Hsilent & Hc).
  rewrite Hloud in Hsilent.
  destruct (has_room (w_lot w)).
  - destruct Hc as (c & Hcars & _).
    injection Hio as <-. cbn [w_lot w_bills w_csv w_console].
    rewrite Hsilent, Hcars, length_app, map_app. cbn [List.map].
    rewrite !last_last. cbn [List.length ParkingLot_logOut].
    replace (_ <? _)%nat with true by (symmetry; apply Nat.ltb_lt; lia).
    exists (Some c). repeat split.
  - injection Hio as <-. cbn [w_lot w_bills w_csv w_console].
    rewrite Hc, Nat.ltb_irrefl. exists None. repeat split.
Qed.

(** One removal at the menu of a store that is not silent: either a record
    is erased and its bill printed and saved, or nothing changes and the
    error message is printed. *)
Lemma removeCar_step (now carID : Z) (owner : string) (w w' : World) :
  silentMode (w_lot w) = false ->
  removeCar now carID owner w = Some w' ->
  exists r,
    removeCarByIdAndOwner now carID owner (w_lot w) = Some r /\
    w_lot w' = lot_after r /\ w_csv w' = w_csv w /\
    match bill r with
    | Some b => removed r = true /\
                w_bills w' = w_bills w ++ [b] /\
                w_console w' = w_console w ++ [MsgBill b]
    | None => removed r = false /\ lot_after r = w_lot w /\
              w_bills w' = w_bills w /\
              w_console w' = w_console w ++ [MsgNotFound]
    end.
Proof.
  intros Hloud Hio. unfold removeCar, removeCarByIdAndOwner_io in Hio.
  destruct (removeCarByIdAndOwner now carID owner (w_lot w)) as [r|] eqn:Hr;
    [|discriminate].
  exists r. split; [reflexivity|].
  pose proof (removal_split _ _ _ _ _ Hr) as Hs.
  destruct (removed r).
  - destruct Hs as (l1 & c & l2 & hours & _ & _ & _ & _ & ->).
    cbn [bill bill_saved removed lot_after] in *. rewrite Hloud in Hio.
    cbn [negb ParkingLot_logOut] in Hio. injection Hio as <-.
    repeat split.
  - destruct Hs as [_ ->].
    cbn [bill removed lot_after w_lot w_csv w_bills w_console] in *.
    rewrite Hloud in Hio. cbn [ParkingLot_logOut] in Hio.
    injection Hio as <-. repeat split.
Qed.

(** What a session leaves behind, from any store that is not silent. *)
Lemma main_loop_accounts (inputs : list MenuInput) :
  forall (w w' : World) (finished : bool),
    silentMode (w_lot w) = false ->
    main_loop inputs w = Some (finished, w') ->
    exists ids saves new_bills,
      run (session_ops inputs) (w_lot w) = Some (w_lot w', ids) /\
      w_csv w' = save_all saves (w_csv w) /\
      List.map (fun s => id (snd s)) saves = ids /\
      w_bills w' = w_bills w ++ new_bills /\
      Permutation (List.map id (cars (w_lot w)) ++ ids)
                  (List.map id (cars (w_lot w')) ++ List.map bill_id new_bills).
Proof.
  induction inputs as [|[|choice a] inputs IH]; intros w w' finished Hloud Hmain;
    cbn [main_loop session_ops] in *.
  - injection Hmain as _ <-. exists [], [], []. cbn [run save_all List.map].
    rewrite !app_nil_r. repeat split. apply Permutation_refl.
  - refine (IH _ _ _ _ Hmain); exact Hloud.
  - destruct (choice =? 1).
    { destruct (parkCar_io _ _ _ w) as [w1|] eqn:Hio; [|discriminate].
      destruct (parkCar_io_step _ _ _ _ _ Hloud Hio) as (adm & Hstep & Hb & Hadm).
      assert (Hloud1 : silentMode (w_lot w1) = false)
        by (rewrite (step_silentMode _ _ _ _ Hstep); exact Hloud).
      destruct (IH _ _ _ Hloud1 Hmain)
        as (ids & saves & nb & Hrun & Hcsv & Hids & Hbills & Hperm).
      pose proof (step_inv _ _ _ _ Hstep) as (_ & _ & Hinv).
      cbn [run]. rewrite Hstep, Hrun.
      destruct adm as [c|].
      - destruct Hadm as [Hcsv1 _]. destruct Hinv as (_ & _ & Hcars & _).
        exists (id c :: ids), ((a_ctime a, c) :: saves), nb.
        cbn [save_all List.map fst snd]. rewrite <- Hcsv1, <- Hcsv, Hids.
        rewrite Hbills, Hb. repeat split.
        rewrite Hcars, map_app, <- app_assoc in Hperm. exact Hperm.
      - destruct Hadm as [Hcsv1 _]. destruct Hinv as (_ & Hcars & _).
        exists ids, saves, nb. rewrite <- Hcsv1, <- Hcsv, Hbills, Hb.
        repeat split; auto. rewrite <- Hcars. exact Hperm. }
    destruct (choice =? 2).
    { destruct (removeCar _ _ _ w) as [w1|] eqn:Hio; [|discriminate].
      destruct (removeCar_step _ _ _ _ _ Hloud Hio)
        as (r & Hr & Hlot & Hcsv1 & Hbill).
      assert (Hloud1 : silentMode (w_lot w1) = false).
      { rewrite Hlot. apply removeCarByIdAndOwner_inv in Hr as (_ & -> & _).
        exact Hloud. }
      destruct (IH _ _ _ Hloud1 Hmain)
        as (ids & saves & nb & Hrun & Hcsv & Hids & Hbills & Hperm).
      cbn [run step]. rewrite Hr. cbn [option_map]. rewrite <- Hlot, Hrun.
      pose proof (removal_split _ _ _ _ _ Hr) as Hs.
      destruct (bill r) as [b|] eqn:Hb.
      - destruct Hbill as (Hrem & Hb1 & _). rewrite Hrem in Hs.
        destruct Hs as (l1 & c & l2 & hours & Hcars & Hc & _ & _ & Hreq).
        exists ids, saves, (b :: nb). rewrite <- Hcsv1, <- Hcsv, Hbills, Hb1.
        rewrite <- app_assoc. repeat split; auto.
        assert (Hbid : bill_id b = id c).
        { rewrite Hreq in Hb. cbn [bill] in Hb. injection Hb as <-.
          unfold bill_of_hours.
          destruct (dynamicPricing c); [destruct (5 <? hours)%float|];
            reflexivity. }
        rewrite Hlot, Hreq in Hperm. cbn [lot_after set_cars cars] in Hperm.
        rewrite Hcars. cbn [List.map]. rewrite Hbid.
        rewrite map_app in *. cbn [List.map].
        rewrite <- app_assoc. cbn [app].
        etransitivity; [symmetry; apply Permutation_middle|].
        etransitivity; [|apply Permutation_middle].
        apply perm_skip. rewrite app_assoc. exact Hperm.
      - destruct Hbill as (_ & Hsame & Hb1 & _).
        exists ids, saves, nb. rewrite <- Hcsv1, <- Hcsv, Hbills, Hb1.
        repeat split; auto. rewrite Hlot, Hsame in Hperm. exact Hperm. }
    destruct (choice =? 3).
    { refine (IH _ _ _ _ Hmain); exact Hloud. }
    destruct (choice =? 4).
    { injection Hmain as _ <-. exists [], [], []. cbn [run save_all List.map].
      rewrite !app_nil_r. repeat split. apply Permutation_refl. }
    refine (IH _ _ _ _ Hmain); exact Hloud.
Qed.

Lemma session_keeps_store_sound_witness :
  exists w,
    main_loop sample_session (main_start None []) = Some (true, w) /\
    List.map id (cars (w_lot w)) = [1002] /\
    NoDup (List.map id (cars (w_lot w))).
Proof.
  destruct (main_loop sample_session (main_start None [])) as [[fin w]|] eqn:Hm;
    [|vm_compute in Hm; discriminate].
  pose proof (session_keeps_store_sound _ _ _ _ _ Hm) as (_ & Hnd & _).
  vm_compute in Hm. injection Hm as <- <-.
  eexists. split; [reflexivity|]. split; [reflexivity | exact Hnd].
Defined.

(** X16. Bookkeeping of a session of [main]: the ids handed out to
    admitted records are, up to order, the ids still stored followed by the
    ids on the bills written since the start; the CSV file has gained one
    data line per admitted record, in order of admission, with the header
    first when there was no file; the bill file has only grown at its
    end. *)
Theorem session_accounts_for_every_id (inputs : list MenuInput)
    (csv : option (list CsvLine)) (bills : list Bill)
    (finished : bool) (w : World) :
  main_loop inputs (main_start csv bills) = Some (finished, w) ->
  exists ids saves new_bills,
    run (session_ops inputs) ParkingLot_new = Some (w_lot w, ids) /\
    w_csv w = save_all saves csv /\
    List.map (fun s => id (snd s)) saves = ids /\
    w_bills w = bills ++ new_bills /\
    Permutation ids (List.map id (cars (w_lot w)) ++ List.map bill_id new_bills) /\
    (List.length new_bills + getCarCount (w_lot w))%nat = List.length ids /\
    (csv = None -> ids <> [] -> exists rows, w_csv w = Some (CsvHeader :: rows)).
Proof.
  intros Hmain.
  destruct (main_loop_accounts inputs (main_start csv bills) w finished eq_refl Hmain)
    as (ids & saves & nb & Hrun & Hcsv & Hids & Hbills & Hperm).
  cbn [main_start w_lot w_csv w_bills cars ParkingLot_new List.map app] in *.
  exists ids, saves, nb. repeat split; auto.
  - apply Permutation_length in Hperm.
    rewrite length_app, !length_map in Hperm. unfold getCarCount. lia.
  - intros -> Hne. rewrite Hcsv.
    destruct saves as [|[ct car] saves]; [cbn in Hids; congruence|].
    cbn [save_all]. rewrite save_all_some. eexists. reflexivity.
Qed.

Lemma session_accounts_for_every_id_witness :
  exists w b rows,
    main_loop sample_session (main_start None []) = Some (true, w) /\
    List.map id (cars (w_lot w)) = [1002] /\
    w_bills w = [b] /\ bill_id b = 1001 /\
    w_csv w = Some (CsvHeader :: rows) /\ csv_ids (w_csv w) = [1001; 1002].
Proof.
  destruct (main_loop sample_session (main_start None [])) as [[fin w]|] eqn:Hm;
    [|vm_compute in Hm; discriminate].
  destruct (session_accounts_for_every_id _ _ _ _ _ Hm)
    as (ids & saves & nb & _ & _ & _ & _ & _ & _ & _).
  vm_compute in Hm. injection Hm as <- <-.
  do 3 eexists. repeat split.
Defined.

(** X17. Once its prompts are answered, [parkCar] at 100 records reports
    nothing: after the last prompt it prints no message, neither the
    confirmation nor an error, in either mode; it saves nothing and keeps
    the records, and only the counter has advanced. With room, it appends
    one record with the counter's value as id, writes no bill, and, unless
    silent, saves that record to the CSV file and prints the confirmation
    as its one message after the prompts. *)
Theorem rejected_admission_is_not_reported (now : Z) (ct : string)
    (inp : ParkInput) (w w' : World) :
  parkCar_io now ct inp w = Some w' ->
  ((100 <= getCarCount (w_lot w))%nat ->
   cars (w_lot w') = cars (w_lot w) /\
   w_csv w' = w_csv w /\ w_bills w' = w_bills w /\
   w_console w' = w_console w /\
   nextCarID (w_lot w') = nextCarID (w_lot w) + 1) /\
  ((getCarCount (w_lot w) < 100)%nat ->
   exists c,
     cars (w_lot w') = cars (w_lot w) ++ [c] /\ id c = nextCarID (w_lot w) /\
     w_bills w' = w_bills w /\
     if silentMode (w_lot w)
     then w_csv w' = w_csv w /\ w_console w' = w_console w
     else w_csv w' = Some (saveCarToCSV ct c (w_csv w)) /\
          w_console w' = w_console w ++ [MsgParked]).
Proof.
  unfold parkCar_io.
  destruct (parkCar now inp (w_lot w)) as [lot'|] eqn:Hp; [|discriminate].
  pose proof (parkCar_inv _ _ _ _ Hp) as (_ & Hn & Hsilent & Hc).
  destruct (has_room (w_lot w)) eqn:Hroom; intros [= <-];
    cbn [w_lot w_csv w_bills w_console].
  - apply has_room_true in Hroom. split; [lia|]. intros _.
    destruct Hc as (c & Hcars & Hid & _). exists c.
    rewrite Hsilent, Hcars, last_last.
    destruct (silentMode (w_lot w)); cbn [ParkingLot_logOut];
      rewrite ?app_nil_r; repeat split; auto.
  - apply has_room_false in Hroom. split; [|lia]. intros _.
    repeat split; auto.
Qed.

Lemma rejected_admission_is_not_reported_witness :
  exists w',
    parkCar_io t0 (a_ctime sample_answers) sample_input full_world = Some w' /\
    w_csv w' = Some [] /\ w_console w' = [] /\
    nextCarID (w_lot w') = 1102.
Proof.
  destruct (parkCar_io t0 (a_ctime sample_answers) sample_input full_world)
    as [w'|] eqn:Hio; [|vm_compute in Hio; discriminate].
  destruct (rejected_admission_is_not_reported _ _ _ _ _ Hio) as [Hfull _].
  destruct (Hfull ltac:(vm_compute; lia)) as (_ & Hcsv & _ & Hcon & Hn).
  exists w'. split; [reflexivity|]. repeat split; auto.
Defined.



(** X19. [displayCars] prints nothing when the store is silent; otherwise
    the notice alone for an empty store, and else the table header followed
    by one row per stored record, in the order of the store. *)
Theorem displayCars_lists_every_record (lot : ParkingLot) :
  displayCars lot =
  if silentMode lot then []
  else match cars lot with
       | [] => [MsgDisplay NoCarsParked]
       | _ => MsgDisplay TableHeader ::
              List.map (fun car => MsgDisplay (TableRow (display_row car)))
                       (cars lot)
       end.
Proof.
  unfold displayCars.
  assert (Hrows : forall l : list Car,
             List.flat_map
               (fun car => ParkingLot_logOut (silentMode lot)
                             (MsgDisplay (TableRow (display_row car)))) l =
             if silentMode lot then []
             else List.map (fun car => MsgDisplay (TableRow (display_row car))) l).
  { induction l as [|x xs IH]; cbn [List.flat_map List.map].
    - now destruct (silentMode lot).
    - rewrite IH. now destruct (silentMode lot). }
  rewrite Hrows. destruct (cars lot), (silentMode lot); reflexivity.
Qed.

Lemma short_delay_in_int64 (d : Z) :
  0 <= d < chrono.ticks_per_minute -> in_int64 d = true.
Proof.
  unfold in_int64, chrono.ticks_per_minute, INT64_MIN, INT64_MAX.
  intros H. apply andb_true_iff. split; apply Z.leb_le; lia.
Qed.

(** X20. A record admitted by [parkCar] with no hours already parked and
    a finite rate owes nothing until a full minute has passed:
    [calculateFee] returns 0 for it at every clock reading less than one
    minute after the admission. *)
Theorem fresh_admission_owes_nothing (now now' : Z) (inp : ParkInput)
    (lot lot' : ParkingLot) :
  parkCar now inp lot = Some lot' ->
  (getCarCount lot < 100)%nat ->
  (0 <? in_parkingHours inp)%float = false ->
  Double.is_finite (in_hourlyRate inp) = true ->
  0 <= now' - now < chrono.ticks_per_minute ->
  exists c fee,
    cars lot' = cars lot ++ [c] /\
    calculateFee now' c = Some fee /\ (fee =? 0)%float = true.
Proof.
  intros Hp Hroom Hnow Hfin Hdelay. apply has_room_true in Hroom.
  destruct (parkCar_admits _ _ _ _ Hp Hroom) as (t & Hcars & Ht).
  rewrite Hnow in Ht. subst t.
  exists (car_of_input now (nextCarID lot) inp). eexists.
  split; [exact Hcars|]. unfold calculateFee.
  cbn [car_of_input set_parkingTime parkingTime].
  rewrite (elapsed_hours_defined _ _ (short_delay_in_int64 _ Hdelay)).
  cbn [option_map]. split; [reflexivity|].
  rewrite Z.quot_small by exact Hdelay.
  apply fee_of_hours_zero.
  change (hourlyRate (car_of_input now (nextCarID lot) inp))
    with (in_hourlyRate inp).
  change (hours_of_minutes 0) with 0%float.
  rewrite FloatAxioms.mul_spec. change (Prim2SF 0) with (S754_zero false).
  unfold Double.is_finite in Hfin.
  destruct (Prim2SF (in_hourlyRate inp)); try discriminate; exact I.
Qed.

Lemma fresh_admission_owes_nothing_witness :
  exists lot' c fee,
    parkCar t0 arriving_input ParkingLot_new = Some lot' /\
    cars lot' = [c] /\
    calculateFee (t0 + 59999999999) c = Some fee /\ (fee =? 0)%float = true.
Proof.
  destruct (parkCar t0 arriving_input ParkingLot_new) as [lot'|] eqn:Hp;
    [|vm_compute in Hp; discriminate].
  destruct (fresh_admission_owes_nothing t0 (t0 + 59999999999) arriving_input
              ParkingLot_new lot' Hp ltac:(vm_compute; lia) eq_refl eq_refl
              ltac:(vm_compute; split; [discriminate | reflexivity]))
    as (c & fee & Hc & Hfee & Hz).
  exists lot', c, fee. repeat split; assumption.
Defined.


Lemma hours_of_minutes_nonpos (m : Z) :
  - 2 ^ 63 < m <= 0 -> hours_of_minutes m = 0%float.
Proof.
  intros Hm.
  destruct (hours_of_minutes_spec m) as [-> _]; [lia|].
  now replace (Z.max 0 m) with 0 by lia.
Qed.

(** X21. For a record with a finite rate, of either sign, whose parking
    time is later than the clock reading or less than one minute before it,
    [calculateFee] returns 0, with or without dynamic pricing. *)
Theorem future_parking_is_free (now : Z) (car : Car) :
  now - parkingTime car < chrono.ticks_per_minute ->
  in_int64 (now - parkingTime car) = true ->
  Double.is_finite (hourlyRate car) = true ->
  exists fee, calculateFee now car = Some fee /\ (fee =? 0)%float = true.
Proof.
  intros Hd Hrange Hfin. unfold calculateFee.
  rewrite (elapsed_hours_defined _ _ Hrange). cbn [option_map].
  eexists. split; [reflexivity|].
  pose proof (minutes_count_range _ Hrange) as Hm.
  unfold chrono.minutes_count in Hm.
  rewrite hours_of_minutes_nonpos.
  - apply fee_of_hours_zero. rewrite FloatAxioms.mul_spec.
    change (Prim2SF 0) with (S754_zero false).
    unfold Double.is_finite in Hfin.
    destruct (Prim2SF (hourlyRate car)); try discriminate; exact I.
  - split; [lia|].
    destruct (Z.le_gt_cases 0 (now - parkingTime car)) as [Hpos|Hneg].
    + rewrite Z.quot_small; lia.
    + exact (Z.quot_le_mono _ 0 chrono.ticks_per_minute eq_refl
               (Z.lt_le_incl _ _ Hneg)).
Qed.

Lemma future_parking_is_free_witness :
  exists fee, calculateFee t0 future_car = Some fee /\ (fee =? 0)%float = true.
Proof.
  exact (future_parking_is_free t0 future_car eq_refl eq_refl eq_refl).
Defined.

(** X22. When two stored records share an id and differ in the owner
    name, [getCarByID] returns the earlier one, while
    [removeCarByIdAndOwner] called with the later one's owner removes the
    later one and leaves the earlier one in place, still returned by
    [getCarByID]. *)
Theorem removal_picks_owner_among_same_id (now now' : Z) (lot : ParkingLot)
    (l1 l2 l3 : list Car) (c1 c2 : Car) :
  cars lot = l1 ++ c1 :: l2 ++ c2 :: l3 ->
  id c1 = id c2 -> ownerName c1 <> ownerName c2 ->
  (forall x, In x l1 -> id x <> id c2) ->
  (forall x, In x l2 -> owner_matches (id c2) (ownerName c2) x = false) ->
  in_int64 (now - parkingTime c2) = true ->
  getCarByID now' (id c2) lot = c1 /\
  exists r,
    removeCarByIdAndOwner now (id c2) (ownerName c2) lot = Some r /\
    removed r = true /\
    cars (lot_after r) = l1 ++ c1 :: l2 ++ l3 /\
    getCarByID now' (id c2) (lot_after r) = c1.
Proof.
  intros Hcars Hid Hown Hl1 Hl2 Hrange.
  assert (Hfirst : forall rest,
             find_if (fun car => id car =? id c2) (l1 ++ c1 :: rest) =
             Some (List.length l1, c1)).
  { intros rest. apply find_if_first; [now apply Z.eqb_eq|].
    intros x Hx. apply Z.eqb_neq. now apply Hl1. }
  split; [unfold getCarByID; now rewrite Hcars, Hfirst|].
  assert (Hfind : find_if (owner_matches (id c2) (ownerName c2)) (cars lot) =
                  Some (List.length (l1 ++ c1 :: l2), c2)).
  { rewrite Hcars.
    change (l1 ++ c1 :: l2 ++ c2 :: l3) with (l1 ++ (c1 :: l2) ++ c2 :: l3).
    rewrite app_assoc. apply find_if_first.
    - unfold owner_matches. now rewrite Z.eqb_refl, String.eqb_refl.
    - intros x Hx. apply in_app_or in Hx as [Hx|[<-|Hx]].
      + unfold owner_matches.
        destruct (Z.eqb_spec (id x) (id c2)) as [He|]; [|reflexivity].
        now apply Hl1 in Hx.
      + unfold owner_matches.
        destruct (String.eqb_spec (ownerName c1) (ownerName c2)) as [He|];
          [contradiction | apply andb_false_r].
      + now apply Hl2. }
  unfold removeCarByIdAndOwner. rewrite Hfind.
  rewrite (elapsed_hours_defined _ _ Hrange).
  eexists. split; [reflexivity|]. cbn [removed lot_after]. split; [reflexivity|].
  assert (Hleft : erase (List.length (l1 ++ c1 :: l2)) (cars lot) =
                  l1 ++ c1 :: l2 ++ l3).
  { rewrite Hcars.
    change (l1 ++ c1 :: l2 ++ c2 :: l3) with (l1 ++ (c1 :: l2) ++ c2 :: l3).
    rewrite app_assoc, erase_middle, <- app_assoc. reflexivity. }
  split.
  - exact Hleft.
  - unfold getCarByID.
    change (cars (set_cars lot (erase (List.length (l1 ++ c1 :: l2)) (cars lot))))
      with (erase (List.length (l1 ++ c1 :: l2)) (cars lot)).
    now rewrite Hleft, Hfirst.
Qed.

Lemma removal_picks_owner_among_same_id_witness :
  ownerName (getCarByID t0 2013 twice_2013) = "First"%string /\
  exists r,
    removeCarByIdAndOwner t0 2013 "Second" twice_2013 = Some r /\
    removed r = true /\
    List.map ownerName (cars (lot_after r)) = ["First"%string] /\
    ownerName (getCarByID t0 2013 (lot_after r)) = "First"%string.
Proof.
  destruct (removal_picks_owner_among_same_id t0 t0 twice_2013 [] [] []
              (createCar t0 2013 "First" false 50)
              (createCar t0 2013 "Second" false 50)
              eq_refl eq_refl ltac:(discriminate)
              ltac:(intros x []) ltac:(intros x []) eq_refl)
    as (Hget & r & Hr & Hrem & Hcars & Hget').
  split; [exact (f_equal ownerName Hget)|].
  exists r. split; [exact Hr|]. split; [exact Hrem|].
  split; [exact (f_equal (List.map ownerName) Hcars)
         | exact (f_equal ownerName Hget')].
Defined.
